(** * Reactive values, signals and expiry tokens of [v.hpp]

    A shallow embedding of the header-only library [v] (namespace [v]):
    observable properties, computed getters, expiry tokens and the attacher
    registry, all built on [boost::signals2].

    The embedding follows the revision of the header that has
    [detail::read_only_property_base], an [expiry_token] with a destructor
    and [attacher::attach]/[attacher::detach].  The other revisions of the
    header have the same bodies under other names for everything modelled
    here, with these exceptions, pointed out again where they matter: one
    revision's [expiry_token] declares no destructor, and the attacher of
    that revision keys the registry by the object's address instead of
    [std::hash], calls the owner's [attach]/[detach] members instead of
    [update] with a tag, and offers no explicit detach.

    Modelling conventions.
    - [boost::signals2::signal<void()>] is an external library.  It is
      modelled as the list of its slots in connection order; a connection is
      the position of its slot, [disconnect] clears the slot's [connected]
      flag, and invoking the signal walks the slots that existed when the
      invocation started and calls those that are still connected when
      their turn comes.
    - A user callback is opaque code.  Its only modelled effect is that the
      call is recorded, at the end of a trace, under the connection it was
      registered with (a property's observer also records the value it
      reads through [get()]).  User callbacks do not call back into the
      object that notifies them.  The owner's [update] hook of an attacher
      is treated the same way: the call and its argument are recorded.
    - The attacher's [on_expired] closure is code of the library and is
      modelled in full, including the fact that it disconnects its own slot
      while the signal is being invoked.
    - There is one attacher; the objects it can attach are the expirable
      objects of the state, each owning one expiry token, to which
      [expirable::expire], [is_expired] and [observe_expiry] forward.
    - Calling a member of an object that has been destroyed is undefined
      behaviour; the operations that dereference an object return [None]
      there. *)

From stdpp Require Import gmap list.

(** * Part I: the model *)

(** ** Signals *)

Module Signals.

Section SIGNAL.
Context {F : Type}.

(** One slot of a signal: the callable and whether its connection is still
    connected. *)
Record slot := Slot { slot_target : F; slot_connected : bool }.

(** A signal is the list of its slots, in connection order ([signal F]
    below). *)

(** [signal_.connect(slot)]: the slot goes to the back; the connection
    returned designates it. *)
Definition connect (f : F) (sg : list slot) : list slot * nat :=
  (sg ++ [Slot f true], length sg).

Definition unplug (s : slot) : slot := Slot (slot_target s) false.

(** [connection::disconnect()]; nothing happens when the connection does not
    designate a slot. *)
Definition disconnect (i : nat) (sg : list slot) : list slot :=
  alter unplug i sg.

Definition is_connected (sg : list slot) (i : nat) : bool :=
  match sg !! i with
  | Some s => slot_connected s
  | None => false
  end.

(** The connections a call of the signal reaches, in calling order. *)
Definition connected_ids (sg : list slot) : list nat :=
  filter (fun i => is_connected sg i = true) (seq 0 (length sg)).

Section INVOKE.
Context {W : Type}.
(** How to find slot [i] of the signal in the state, and how to run a
    callable that was registered under connection [i]. *)
Variable slot_at : nat -> W -> option slot.
Variable run : nat -> F -> W -> W.

Definition call_slot (w : W) (i : nat) : W :=
  match slot_at i w with
  | Some s => if slot_connected s then run i (slot_target s) w else w
  | None => w
  end.

(** [signal_()] over the connections [ids]. *)
Definition invoke_ids (ids : list nat) (w : W) : W :=
  fold_left call_slot ids w.
End INVOKE.
End SIGNAL.

Arguments slot : clear implicits.

Abbreviation signal F := (list (slot F)) (only parsing).

End Signals.

Import Signals.

(** ** Values with [operator==] *)

Class EqOp (T : Type) := op_eq : T -> T -> bool.

#[global] Instance Z_EqOp : EqOp Z := Z.eqb.

(** ** [read_only_property] *)

Module ReadOnlyProperty.

Section WITH_T.
Context {T : Type} `{EqOp T}.

(** [read_only_property_base<T, SignalType>]: [value_] and [signal_]. *)
Record t := Make { value_ : T; signal_ : signal unit }.

(** What the observers have seen so far: the connection that was called and
    the value [get()] gave it. *)
Definition calls := list (nat * T).

Definition state := (t * calls)%type.

(** [read_only_property(T value)] *)
Definition make (value : T) : t := Make value [].

(** [get()] *)
Definition get (p : t) : T := value_ p.

(** [operator==(const T& value)] *)
Definition equals (p : t) (value : T) : bool := op_eq (value_ p) value.

(** [observe(slot)] *)
Definition observe (p : t) : t * nat :=
  let '(sg, c) := connect tt (signal_ p) in (Make (value_ p) sg, c).

(** [connection::disconnect()] on a connection that [observe] returned. *)
Definition disconnect_observer (c : nat) (p : t) : t :=
  Make (value_ p) (disconnect c (signal_ p)).

Definition slot_at (i : nat) (st : state) : option (slot unit) :=
  signal_ (fst st) !! i.

Definition run_observer (i : nat) (_ : unit) (st : state) : state :=
  (fst st, snd st ++ [(i, get (fst st))]).

(** [notify()]: [signal_()] *)
Definition notify (st : state) : state :=
  invoke_ids slot_at run_observer (seq 0 (length (signal_ (fst st)))) st.

(** The private [set(U&& value, bool notify = true, bool force = false)]:
<<
    if (value == value_ && !force) return;
    value_ = std::forward<U>(value);
    if (notify) this->notify();
>> *)
Definition set (value : T) (notify_ force : bool) (st : state) : state :=
  if op_eq value (value_ (fst st)) && negb force then st
  else
    let st' := (Make value (signal_ (fst st)), snd st) in
    if notify_ then notify st' else st'.

(** The private [operator=]: [set(value)] with the default flags. *)
Definition assign (value : T) (st : state) : state := set value true false st.

(** What one firing of the channel delivers: one call per connected
    observer, in connection order, each reading the value [v]. *)
Definition deliveries (sg : signal unit) (v : T) : calls :=
  (fun i => (i, v)) <$> connected_ids sg.

End WITH_T.

Arguments t : clear implicits.
Arguments calls : clear implicits.
Arguments state : clear implicits.

End ReadOnlyProperty.

(** ** [property_setter]: the holder of the write capability *)

Module PropertySetter.

Section WITH_T.
Context {T : Type} `{EqOp T}.

(** [set]: [property_->set(value, notify, force)] *)
Definition set (value : T) (notify_ force : bool)
    (st : ReadOnlyProperty.state T) : ReadOnlyProperty.state T :=
  ReadOnlyProperty.set value notify_ force st.

(** [operator=]: [set(value)] *)
Definition assign (value : T) (st : ReadOnlyProperty.state T)
    : ReadOnlyProperty.state T :=
  set value true false st.

End WITH_T.

End PropertySetter.

(** ** [property]: a read-only property with its own setter *)

Module Property.

Section WITH_T.
Context {T : Type} `{EqOp T}.

(** [property(const T& value)] *)
Definition make (value : T) : ReadOnlyProperty.t T := ReadOnlyProperty.make value.

(** [set]: [setter_.set(value, notify, force)] *)
Definition set (value : T) (notify_ force : bool)
    (st : ReadOnlyProperty.state T) : ReadOnlyProperty.state T :=
  PropertySetter.set value notify_ force st.

(** [operator=]: [setter_.operator=(value)] *)
Definition assign (value : T) (st : ReadOnlyProperty.state T)
    : ReadOnlyProperty.state T :=
  PropertySetter.assign value st.

End WITH_T.

End Property.

(** ** [one_shot_property] *)

Module OneShotProperty.

Section WITH_T.
Context {T : Type} `{EqOp T}.

(** The base [property<T>] and the latch [flag_]. *)
Record t := Make { base : ReadOnlyProperty.t T; flag_ : bool }.

Definition state := (t * ReadOnlyProperty.calls T)%type.

(** [one_shot_property(const T& value)]; [flag_] starts false. *)
Definition make (value : T) : t := Make (Property.make value) false.

Definition get (p : t) : T := ReadOnlyProperty.get (base p).

(** [observe(slot)], inherited. *)
Definition observe (p : t) : t * nat :=
  let '(b, c) := ReadOnlyProperty.observe (base p) in (Make b (flag_ p), c).

(** [set]:
<<
    if (flag_) return;
    property<T>::set(value, notify, force);
    flag_ = true;
>> *)
Definition set (value : T) (notify_ force : bool) (st : state) : state :=
  if flag_ (fst st) then st
  else
    let st' := Property.set value notify_ force (base (fst st), snd st) in
    (Make (fst st') true, snd st').

(** [operator=]:
<<
    if (flag_) return *this;
    property<T>::operator=(std::forward<U>(value));
    flag_ = true;
>> *)
Definition assign (value : T) (st : state) : state :=
  if flag_ (fst st) then st
  else
    let st' := Property.assign value (base (fst st), snd st) in
    (Make (fst st') true, snd st').

(** A write, by either entry point. *)
Inductive write :=
| BySet (value : T) (notify_ force : bool)
| ByAssign (value : T).

Definition do_write (a : write) (st : state) : state :=
  match a with
  | BySet value notify_ force => set value notify_ force st
  | ByAssign value => assign value st
  end.

Definition do_writes (l : list write) (st : state) : state :=
  fold_left (fun st a => do_write a st) l st.

End WITH_T.

Arguments t : clear implicits.
Arguments state : clear implicits.
Arguments write : clear implicits.

End OneShotProperty.

(** ** [property_observer]: the read-only facade of a property *)

Module PropertyObserver.

Section WITH_T.
Context {T : Type}.

(** [property_observer<T>]: the pointer [value_], null or pointing at the
    producer's [value_], and [connector_], empty or the closure
    [[this](slot) { return signal_.connect(slot); }] of the producer.
    There is one producer; the operations that reach it take its state. *)
Record t := Make { value_ : bool; connector_ : bool }.

(** What a call through a [std::function] gives: the result, or
    [std::bad_function_call] when the function is empty. *)
Inductive outcome (A : Type) :=
| Returns (a : A)
| BadFunctionCall.

(** [property_observer() = default] *)
Definition default : t := Make false false.

(** [read_only_property::observer()]:
    [property_observer<T> { &value_, connect }] *)
Definition observer (p : ReadOnlyProperty.t T) : t := Make true true.

(** [get()]: [*value_]; dereferencing a null pointer is undefined. *)
Definition get (o : t) (p : ReadOnlyProperty.t T) : option T :=
  if value_ o then Some (ReadOnlyProperty.get p) else None.

(** [observe(slot)]: [connector_(slot)] *)
Definition observe (o : t) (p : ReadOnlyProperty.t T)
    : outcome (ReadOnlyProperty.t T * nat) :=
  if connector_ o then Returns _ (ReadOnlyProperty.observe p)
  else BadFunctionCall _.

End WITH_T.

Arguments t : clear implicits.
Arguments Returns {A}.
Arguments BadFunctionCall {A}.

End PropertyObserver.

(** ** [value_cn]: an observer facade, a callback and a scoped connection *)

Module ValueCn.

Section WITH_T.
Context {T : Type}.

(** [observer_] and [connection_] (a [scoped_cn]: empty, or holding a
    connection); [slot_] is the user's callback, whose calls the trace
    records under the connection it is subscribed with. *)
Record t := Make {
  observer_ : PropertyObserver.t;
  connection_ : option nat
}.

Definition state := (t * ReadOnlyProperty.state T)%type.

(** [scoped_cn::disconnect()], which is also what assigning to a
    [scoped_cn] does to the connection it held. *)
Definition release (c : option nat) (p : ReadOnlyProperty.t T)
    : ReadOnlyProperty.t T :=
  match c with
  | Some i => ReadOnlyProperty.disconnect_observer i p
  | None => p
  end.

(** [connect()]: [connection_ = observer_.observe(slot_)]; the new
    subscription is made first, then the assignment disconnects the one
    held before. *)
Definition connect (s : state) : PropertyObserver.outcome state :=
  match PropertyObserver.observe (observer_ (fst s)) (fst (snd s)) with
  | PropertyObserver.Returns (p, c) =>
      PropertyObserver.Returns
        (Make (observer_ (fst s)) (Some c),
         (release (connection_ (fst s)) p, snd (snd s)))
  | PropertyObserver.BadFunctionCall => PropertyObserver.BadFunctionCall
  end.

(** [disconnect()]: [connection_.disconnect()] *)
Definition disconnect (s : state) : state :=
  (fst s, (release (connection_ (fst s)) (fst (snd s)), snd (snd s))).

(** [value_cn(observer, slot, start_disconnected)]:
    [if (!start_disconnected) connect();] *)
Definition make (observer : PropertyObserver.t) (start_disconnected : bool)
    (st : ReadOnlyProperty.state T) : PropertyObserver.outcome state :=
  if start_disconnected then PropertyObserver.Returns (Make observer None, st)
  else connect (Make observer None, st).

(** [get()]: [observer_.get()] *)
Definition get (vc : t) (p : ReadOnlyProperty.t T) : option T :=
  PropertyObserver.get (observer_ vc) p.

(** Switching the subscription on and off. *)
Inductive toggle := Connect | Disconnect.

#[global] Instance toggle_eq_dec : EqDecision toggle.
Proof. solve_decision. Defined.

Definition do_toggle (a : toggle) (s : state) : PropertyObserver.outcome state :=
  match a with
  | Connect => connect s
  | Disconnect => PropertyObserver.Returns (disconnect s)
  end.

Fixpoint do_toggles (l : list toggle) (s : state)
    : PropertyObserver.outcome state :=
  match l with
  | [] => PropertyObserver.Returns s
  | a :: l' =>
      match do_toggle a s with
      | PropertyObserver.Returns s' => do_toggles l' s'
      | PropertyObserver.BadFunctionCall => PropertyObserver.BadFunctionCall
      end
  end.

(** Whether the last thing asked for was a subscription. *)
Definition subscribed (start_disconnected : bool) (l : list toggle) : bool :=
  fold_left (fun _ a => match a with Connect => true | Disconnect => false end)
            l (negb start_disconnected).

(** What holds of a [value_cn] made over the facade of the property [p0]
    and toggled since, [b] telling whether it is subscribed: the value is
    the one of [p0]; the connections a notification reaches are those of
    [p0] followed, when subscribed, by the one connection the [value_cn]
    holds; and that connection is one made after [p0]. *)
Definition tracks (p0 : ReadOnlyProperty.t T) (b : bool) (s : state) : Prop :=
  observer_ (fst s) = PropertyObserver.observer p0
  /\ ReadOnlyProperty.value_ (fst (snd s)) = ReadOnlyProperty.value_ p0
  /\ length (ReadOnlyProperty.signal_ p0)
       <= length (ReadOnlyProperty.signal_ (fst (snd s)))
  /\ (forall c, connection_ (fst s) = Some c ->
       length (ReadOnlyProperty.signal_ p0) <= c
       /\ c < length (ReadOnlyProperty.signal_ (fst (snd s))))
  /\ connected_ids (ReadOnlyProperty.signal_ (fst (snd s))) =
       connected_ids (ReadOnlyProperty.signal_ p0)
       ++ (if b then option_list (connection_ (fst s)) else [])
  /\ (b = true -> is_Some (connection_ (fst s))).

End WITH_T.

Arguments t : clear implicits.
Arguments state : clear implicits.

End ValueCn.

(** ** Sample properties *)

(** A property holding 0 with three registered observers, the second one
    disconnected. *)
Definition sample_property : ReadOnlyProperty.t Z :=
  ReadOnlyProperty.Make 0%Z [Slot tt true; Slot tt false; Slot tt true].

Definition sample_one_shot : OneShotProperty.t Z :=
  OneShotProperty.Make sample_property false.

Definition sample_latched : OneShotProperty.t Z :=
  OneShotProperty.Make sample_property true.

(** ** [getter] and [getter_observer] *)

Module Getter.

Section WITH_T.
(** [T] is the value type; [E] is the state the wrapped function captured
    by reference and reads when it is called. *)
Context {T E : Type}.

(** [std::function<T()>]: empty, or bound to a function. *)
Definition getter_fn := option (E -> T).

(** Calling a [std::function]: an empty one throws
    [std::bad_function_call]. *)
Inductive result := Returns (value : T) | BadFunctionCall.

Definition call (f : getter_fn) (e : E) : result :=
  match f with
  | Some g => Returns (g e)
  | None => BadFunctionCall
  end.

(** [getter_fn getter_] and [signal_].  The class declares no conversion
    to [bool]; [getter_observer] does. *)
Record t := Make { getter_ : getter_fn; signal_ : signal unit }.

(** [getter_observer]: a copy of the function, and the closure that
    connects to the producer's signal ([false]: default-constructed,
    empty). *)
Record getter_observer := Observer { o_getter_ : getter_fn; connector_ : bool }.

(** [getter() = default] *)
Definition default : t := Make None [].

(** [getter(getter_fn getter)] *)
Definition make (f : getter_fn) : t := Make f [].

(** [set(getter_fn getter)] *)
Definition set (f : getter_fn) (g : t) : t := Make f (signal_ g).

(** [get()]: [getter_()], computed afresh at every call. *)
Definition get (g : t) (e : E) : result := call (getter_ g) e.

(** [observe(slot)] *)
Definition observe (g : t) : t * nat :=
  let '(sg, c) := connect tt (signal_ g) in (Make (getter_ g) sg, c).

(** [notify()]: [signal_()]; the trace lists the connections called. *)
Definition notify (st : t * list nat) : t * list nat :=
  invoke_ids (fun i st => signal_ (fst st) !! i)
             (fun i _ st => (fst st, snd st ++ [i]))
             (seq 0 (length (signal_ (fst st)))) st.

(** [observer()]: [getter_observer<T> { getter_, connect }]; the function
    is copied into the facade. *)
Definition observer (g : t) : getter_observer := Observer (getter_ g) true.

(** [getter_observer::get()] *)
Definition observer_get (o : getter_observer) (e : E) : result :=
  call (o_getter_ o) e.

(** [getter_observer::observe(slot)]: [connector_(slot)], which connects
    to the signal of the getter; [None] stands for the
    [std::bad_function_call] of an empty connector. *)
Definition observer_observe (o : getter_observer) (g : t) : option (t * nat) :=
  if connector_ o then Some (observe g) else None.

(** [getter_observer::operator bool()]: [bool(getter_)] *)
Definition observer_bool (o : getter_observer) : bool :=
  match o_getter_ o with
  | Some _ => true
  | None => false
  end.

End WITH_T.

Arguments t : clear implicits.
Arguments getter_observer : clear implicits.
Arguments getter_fn : clear implicits.
Arguments result : clear implicits.

End Getter.

(** ** Expiry tokens and the attacher *)

Module Expiry.

(** An expirable object is known by its address. *)
Definition addr := nat.

(** [boost::signals2::connection]: a weak reference to one slot of the
    expiry signal of [cn_object]. *)
Record cn := Cn { cn_object : addr; cn_slot : nat }.

#[global] Instance cn_eq_dec : EqDecision cn.
Proof. solve_decision. Defined.

(** The callables that get connected to an expiry signal: a callback of
    the user, or the closure [on_expired] that [attacher::attach] builds,
    which captures [object]. *)
Inductive slot_fn :=
| user_slot
| on_expired (object : addr).

#[global] Instance slot_fn_eq_dec : EqDecision slot_fn.
Proof. solve_decision. Defined.

(** [expiry_token]: [signal_] and [expired_] (false at construction). *)
Record expiry_token := ExpiryToken {
  signal_ : signal slot_fn;
  expired_ : bool
}.

(** The argument of the owner's [update] hook: [v::attach<U>{object}] or
    [v::detach<U>{object}]. *)
Inductive update_arg :=
| Attach (object : addr)
| Detach (object : addr).

#[global] Instance update_arg_eq_dec : EqDecision update_arg.
Proof. solve_decision. Defined.

(** What the code outside the library sees: a user callback called under
    its connection, or the owner's hook [update] called with a tag. *)
Inductive event :=
| Called (c : cn)
| Update (a : update_arg).

#[global] Instance event_eq_dec : EqDecision event.
Proof. solve_decision. Defined.

(** The expirable objects alive, each with the token it owns; the
    attacher's registry [attached_objects_] (a [scoped_cn] stored there is
    always bound, see [registry_assign]); and the trace. *)
Record world := World {
  heap : gmap addr expiry_token;
  attached_objects_ : gmap nat cn;
  trace : list event
}.

Definition log (e : event) (w : world) : world :=
  World (heap w) (attached_objects_ w) (trace w ++ [e]).

Definition lookup_slot (c : cn) (w : world) : option (slot slot_fn) :=
  match heap w !! cn_object c with
  | Some t => signal_ t !! cn_slot c
  | None => None
  end.

Definition disconnect_token (i : nat) (t : expiry_token) : expiry_token :=
  ExpiryToken (disconnect i (signal_ t)) (expired_ t).

(** [connection::disconnect()]; a connection whose signal is gone does
    nothing. *)
Definition cn_disconnect (c : cn) (w : world) : world :=
  World (alter (disconnect_token (cn_slot c)) (cn_object c) (heap w))
        (attached_objects_ w) (trace w).

(** [attached_objects_.erase(key)]: the [scoped_cn] stored under the key
    is destroyed, which disconnects it. *)
Definition registry_erase (key : nat) (w : world) : world :=
  match attached_objects_ w !! key with
  | Some c =>
      cn_disconnect c (World (heap w) (delete key (attached_objects_ w)) (trace w))
  | None => w
  end.

(** [attached_objects_[key] = c]: assigning to a [scoped_cn] disconnects
    the connection it held. *)
Definition registry_assign (key : nat) (c : cn) (w : world) : world :=
  let w1 :=
    match attached_objects_ w !! key with
    | Some old => cn_disconnect old w
    | None => w
    end in
  World (heap w1) (<[key := c]> (attached_objects_ w1)) (trace w1).

Section WITH_HASH.
(** [std::hash<U>()(object)], the key of [object] in the registry.  (The
    revision that keys by [reinterpret_cast<intptr_t>(object)] is the case
    where [hash] is the identity.) *)
Variable hash : addr -> nat.

(** [attacher::detach(object)]:
<<
    attached_objects_.erase(std::hash<U>()(object));
    static_cast<T*>(this)->update(v::detach<U>{object});
>> *)
Definition detach (object : addr) (w : world) : world :=
  log (Update (Detach object)) (registry_erase (hash object) w).

(** Running a callable that was connected as [c]; [on_expired] is
    [[=]() { detach(object); }]. *)
Definition run_slot (c : cn) (f : slot_fn) (w : world) : world :=
  match f with
  | user_slot => log (Called c) w
  | on_expired object => detach object w
  end.

(** [signal_()] of the token of [o]. *)
Definition signal_call (o : addr) (w : world) : world :=
  match heap w !! o with
  | Some t =>
      invoke_ids (fun i w => lookup_slot (Cn o i) w)
                 (fun i f w => run_slot (Cn o i) f w)
                 (seq 0 (length (signal_ t))) w
  | None => w
  end.

Definition set_expired (o : addr) (w : world) : world :=
  World (alter (fun t => ExpiryToken (signal_ t) true) o (heap w))
        (attached_objects_ w) (trace w).

(** [expiry_token::expire()]:
<<
    if (expired_) return;
    expired_ = true;
    signal_();
>> *)
Definition expire (o : addr) (w : world) : option world :=
  match heap w !! o with
  | Some t => if expired_ t then Some w else Some (signal_call o (set_expired o w))
  | None => None
  end.

(** [expiry_token::is_expired()] *)
Definition is_expired (o : addr) (w : world) : option bool :=
  expired_ <$> heap w !! o.

(** [expiry_token::observe_expiry(slot)]: [signal_ >> slot] *)
Definition observe_expiry (o : addr) (f : slot_fn) (w : world)
    : option (world * cn) :=
  match heap w !! o with
  | Some t =>
      let '(sg, i) := connect f (signal_ t) in
      Some (World (<[o := ExpiryToken sg (expired_ t)]> (heap w))
                  (attached_objects_ w) (trace w),
            Cn o i)
  | None => None
  end.

(** [expiry_token::~expiry_token()]: [expire()], then the members go and
    the object is no longer there.  (The revision whose [expiry_token]
    declares no destructor only does the second half.) *)
Definition destroy (o : addr) (w : world) : option world :=
  match expire o w with
  | Some w1 => Some (World (delete o (heap w1)) (attached_objects_ w1) (trace w1))
  | None => None
  end.

(** [attacher::attach(object)]:
<<
    const auto on_expired = [=]() { detach(object); };
    static_cast<T*>(this)->update(v::attach<U>{object});
    attached_objects_[std::hash<U>()(object)] = observe_expiry(object, on_expired);
>> *)
Definition attach (object : addr) (w : world) : option world :=
  match observe_expiry object (on_expired object) (log (Update (Attach object)) w) with
  | Some (w1, c) => Some (registry_assign (hash object) c w1)
  | None => None
  end.

(** *** Sequences of calls *)

(** What the code around the library can do.  [AttachObject] and
    [DetachObject] are [attacher::operator<<] and [attacher::operator>>].
    The user holds the connections of the callbacks the user registered,
    so [Disconnect] is for those; the connections of the attacher are
    private to it. *)
Inductive op :=
| Expire (o : addr)
| IsExpired (o : addr)
| ObserveExpiry (o : addr)
| Disconnect (c : cn)
| AttachObject (o : addr)
| DetachObject (o : addr)
| Destroy (o : addr).

Definition step (a : op) (w : world) : option world :=
  match a with
  | Expire o => expire o w
  | IsExpired o => match is_expired o w with Some _ => Some w | None => None end
  | ObserveExpiry o => fst <$> observe_expiry o user_slot w
  | Disconnect c =>
      match lookup_slot c w with
      | Some s =>
          match slot_target s with
          | user_slot => Some (cn_disconnect c w)
          | on_expired _ => None
          end
      | None => Some w
      end
  | AttachObject o => attach o w
  | DetachObject o => Some (detach o w)
  | Destroy o => destroy o w
  end.

Fixpoint run (ops : list op) (w : world) : option world :=
  match ops with
  | [] => Some w
  | a :: ops' =>
      match step a w with
      | Some w' => run ops' w'
      | None => None
      end
  end.

(** *** Notions used to state what the operations do *)

(** How many times an event occurs in a trace. *)
Definition occurrences (e : event) (tr : list event) : nat :=
  length (filter (fun x => x = e) tr).

(** The slot of connection [c] exists, is connected and holds [f]. *)
Definition slot_is (w : world) (c : cn) (f : slot_fn) : bool :=
  match lookup_slot c w with
  | Some s => slot_connected s && bool_decide (slot_target s = f)
  | None => false
  end.

(** [c] is the connection of a user callback that is connected to the
    expiry signal of [o]. *)
Definition observes (w : world) (o : addr) (c : cn) : bool :=
  bool_decide (cn_object c = o) && slot_is w c user_slot.

(** The registry holds, under the key of [x], a connection to the expiry
    signal of [o] whose slot is the connected closure [on_expired x]. *)
Definition attached_on (w : world) (o x : addr) : bool :=
  match attached_objects_ w !! hash x with
  | Some c => bool_decide (cn_object c = o) && slot_is w c (on_expired x)
  | None => false
  end.

(** The event a callable gives rise to when it is run as connection
    [c]. *)
Definition slot_event (c : cn) (f : slot_fn) : event :=
  match f with
  | user_slot => Called c
  | on_expired x => Update (Detach x)
  end.

Definition slot_event_at (o : addr) (w : world) (i : nat) : option event :=
  match lookup_slot (Cn o i) w with
  | Some s =>
      if slot_connected s then Some (slot_event (Cn o i) (slot_target s))
      else None
  | None => None
  end.

(** What one firing of the expiry signal of [o] gives rise to: one event
    per connected slot, in connection order. *)
Definition expiry_events (o : addr) (w : world) : list event :=
  match heap w !! o with
  | Some t => omap (slot_event_at o w) (seq 0 (length (signal_ t)))
  | None => []
  end.

(** Every connected [on_expired] closure is the one the registry holds
    under the key of the object it captured. *)
Definition closures_tracked (w : world) : Prop :=
  forall c s x,
    lookup_slot c w = Some s ->
    slot_target s = on_expired x ->
    slot_connected s = true ->
    attached_objects_ w !! hash x = Some c.

(** A connection in the registry designates, as long as its object is
    alive, the slot of a closure [on_expired x] with [x] an object of that
    key; never a callback of the user. *)
Definition registry_private (w : world) : Prop :=
  forall k c,
    attached_objects_ w !! k = Some c ->
    is_Some (heap w !! cn_object c) ->
    exists s x,
      lookup_slot c w = Some s /\ slot_target s = on_expired x /\ hash x = k.

(** The invariant of the attacher and the tokens it subscribed to.  It
    holds when nothing is attached yet ([attacher_inv_init]) and every
    operation keeps it ([attacher_inv_run]). *)
Definition attacher_inv (w : world) : Prop :=
  closures_tracked w /\ registry_private w.

(** [x] is attached through connection [c]: the registry holds [c] under
    the key of [x], [c] designates the connected closure [on_expired x] on
    the expiry signal of [x], and [x] is alive and has not expired. *)
Definition attached_by (x : addr) (c : cn) (w : world) : Prop :=
  attached_objects_ w !! hash x = Some c
  /\ cn_object c = x
  /\ lookup_slot c w = Some (Slot (on_expired x) true)
  /\ is_expired x w = Some false.

(** An operation that leaves the attachment of [x] alone: it does not end
    the life of [x] and does not attach or detach under the key of [x]. *)
Definition keeps_attached (x : addr) (a : op) : Prop :=
  match a with
  | Expire o | Destroy o => o <> x
  | AttachObject o | DetachObject o => hash o <> hash x
  | IsExpired _ | ObserveExpiry _ | Disconnect _ => True
  end.

End WITH_HASH.

(** *** [store] *)

(** [store]: the vector [connections_] of scoped connections. *)
Definition store := list cn.

(** [store::operator+=(scoped_cn&& c)]: [connections_.push_back(...)] *)
Definition store_add (c : cn) (s : store) : store := s ++ [c].

(** The end of a store: every [scoped_cn] of the vector is destroyed, which
    disconnects it. *)
Definition store_destroy (s : store) (w : world) : world :=
  fold_left (fun w c => cn_disconnect c w) s w.

(** *** A sample state *)

(** [std::hash] of a pointer, taken to be the address. *)
Definition sample_hash (o : addr) : nat := o.

(** Three objects: 1 with two user callbacks, the second disconnected; 2
    with nothing connected; 3 already expired, with one user callback.
    Nothing is attached. *)
Definition sample_world : world :=
  World {[ 1 := ExpiryToken [Slot user_slot true; Slot user_slot false] false;
           2 := ExpiryToken [] false;
           3 := ExpiryToken [Slot user_slot true] true ]}
        ∅ [].

(** The sample state after object 2 has been attached, with [sample_hash]
    for the keys. *)
Definition sample_attached_world : world :=
  World {[ 1 := ExpiryToken [Slot user_slot true; Slot user_slot false] false;
           2 := ExpiryToken [Slot (on_expired 2) true] false;
           3 := ExpiryToken [Slot user_slot true] true ]}
        {[ 2 := Cn 2 0 ]}
        [Update (Attach 2)].

(** A hash under which all objects collide, and the sample state after
    object 2 has been attached with it. *)
Definition colliding_hash (o : addr) : nat := 0.

Definition sample_colliding_world : world :=
  World {[ 1 := ExpiryToken [Slot user_slot true; Slot user_slot false] false;
           2 := ExpiryToken [Slot (on_expired 2) true] false;
           3 := ExpiryToken [Slot user_slot true] true ]}
        {[ 0 := Cn 2 0 ]}
        [Update (Attach 2)].

End Expiry.

(** * Part II: properties of the model *)

(** ** Properties: what a notification delivers *)

Section PROPERTY_FACTS.
Context {T : Type} `{EqOp T}.

Lemma call_slot_observer (st : ReadOnlyProperty.state T) (i : nat) :
  call_slot ReadOnlyProperty.slot_at ReadOnlyProperty.run_observer st i =
    (fst st,
     snd st ++ (if is_connected (ReadOnlyProperty.signal_ (fst st)) i
                then [(i, ReadOnlyProperty.value_ (fst st))] else [])).
Proof.
  unfold call_slot, ReadOnlyProperty.slot_at, is_connected,
    ReadOnlyProperty.run_observer, ReadOnlyProperty.get.
  destruct st as [p tr]; simpl.
  destruct (ReadOnlyProperty.signal_ p !! i) as [s|];
    [destruct (slot_connected s)|]; simpl; rewrite ?app_nil_r; reflexivity.
Qed.

Lemma invoke_ids_observer (ids : list nat) (st : ReadOnlyProperty.state T) :
  invoke_ids ReadOnlyProperty.slot_at ReadOnlyProperty.run_observer ids st =
    (fst st,
     snd st ++
       ((fun i => (i, ReadOnlyProperty.value_ (fst st))) <$>
        filter (fun i => is_connected (ReadOnlyProperty.signal_ (fst st)) i = true)
               ids)).
Proof.
  revert st. induction ids as [|i ids IH]; intros [p tr]; simpl.
  - rewrite app_nil_r. reflexivity.
  - unfold invoke_ids in *. simpl. rewrite IH, call_slot_observer. simpl.
    rewrite filter_cons.
    destruct (is_connected (ReadOnlyProperty.signal_ p) i) eqn:Hc.
    + rewrite decide_True by reflexivity. simpl.
      rewrite <- app_assoc. reflexivity.
    + rewrite decide_False by discriminate.
      rewrite app_nil_r. reflexivity.
Qed.

Lemma notify_delivers (p : ReadOnlyProperty.t T) (tr : ReadOnlyProperty.calls T) :
  ReadOnlyProperty.notify (p, tr) =
    (p, tr ++ ReadOnlyProperty.deliveries (ReadOnlyProperty.signal_ p) (ReadOnlyProperty.value_ p)).
Proof.
  unfold ReadOnlyProperty.notify. rewrite invoke_ids_observer. reflexivity.
Qed.

(** The connections a firing reaches are the connected ones, each once. *)
Lemma elem_of_connected_ids {F : Type} (sg : signal F) (i : nat) :
  i ∈ connected_ids sg <-> is_connected sg i = true.
Proof.
  unfold connected_ids. rewrite list_elem_of_filter, elem_of_seq. split.
  - intros [Hc _]. exact Hc.
  - intros Hc. split; [exact Hc|]. unfold is_connected in Hc.
    destruct (sg !! i) as [s|] eqn:Hs; [|discriminate].
    apply lookup_lt_Some in Hs. lia.
Qed.

Lemma NoDup_connected_ids {F : Type} (sg : signal F) : NoDup (connected_ids sg).
Proof. unfold connected_ids. apply NoDup_filter, NoDup_seq. Qed.

Lemma elem_of_deliveries (sg : signal unit) (v v' : T) (i : nat) :
  (i, v') ∈ ReadOnlyProperty.deliveries sg v <->
  v' = v /\ is_connected sg i = true.
Proof.
  unfold ReadOnlyProperty.deliveries. rewrite list_elem_of_fmap. split.
  - intros (j & [= -> ->] & Hj). split; [reflexivity|].
    apply elem_of_connected_ids, Hj.
  - intros [-> Hc]. exists i. split; [reflexivity|].
    apply elem_of_connected_ids, Hc.
Qed.

Lemma NoDup_deliveries (sg : signal unit) (v : T) :
  NoDup (ReadOnlyProperty.deliveries sg v).
Proof.
  unfold ReadOnlyProperty.deliveries.
  apply NoDup_fmap_2; [|apply NoDup_connected_ids].
  intros i j [= ->]. reflexivity.
Qed.

(** The number of calls a notification makes. *)
Lemma deliveries_length (sg : signal unit) (v : T) :
  length (ReadOnlyProperty.deliveries sg v) = length (connected_ids sg).
Proof. unfold ReadOnlyProperty.deliveries. apply length_fmap. Qed.

(** A write to a latched one-shot property does nothing at all. *)
Lemma one_shot_write_latched (a : OneShotProperty.write T)
    (st : OneShotProperty.state T) :
  OneShotProperty.flag_ (fst st) = true -> OneShotProperty.do_write a st = st.
Proof.
  intros Hf. destruct a; simpl;
    unfold OneShotProperty.set, OneShotProperty.assign; rewrite Hf; reflexivity.
Qed.

Lemma one_shot_writes_latched (l : list (OneShotProperty.write T))
    (st : OneShotProperty.state T) :
  OneShotProperty.flag_ (fst st) = true -> OneShotProperty.do_writes l st = st.
Proof.
  intros Hf. induction l as [|a l IH]; [reflexivity|].
  unfold OneShotProperty.do_writes in *. simpl.
  rewrite one_shot_write_latched by exact Hf. exact IH.
Qed.

(** C1.  [set(v, notify, force)] on a property whose current value is [c]:
    when [v == c] and [force] is false the call changes nothing and
    delivers nothing; in every other case the stored value becomes [v], the
    registered observers stay as they were, and the channel fires (every
    connected observer is called once, in connection order, and reads [v]
    through [get()]) when [notify] is true, while nothing is delivered when
    [notify] is false. *)
Theorem property_set_spec (p : ReadOnlyProperty.t T)
    (tr : ReadOnlyProperty.calls T) (v : T) (notify_ force : bool) :
  let st' := Property.set v notify_ force (p, tr) in
  if op_eq v (ReadOnlyProperty.get p) && negb force
  then st' = (p, tr)
  else ReadOnlyProperty.get (fst st') = v
       /\ ReadOnlyProperty.signal_ (fst st') = ReadOnlyProperty.signal_ p
       /\ snd st' =
            tr ++ (if notify_ then ReadOnlyProperty.deliveries (ReadOnlyProperty.signal_ p) v
                   else []).
Proof.
  unfold Property.set, PropertySetter.set, ReadOnlyProperty.set,
    ReadOnlyProperty.get; simpl.
  destruct (op_eq v (ReadOnlyProperty.value_ p) && negb force); [reflexivity|].
  destruct notify_.
  - rewrite notify_delivers. simpl. auto.
  - simpl. rewrite app_nil_r. auto.
Qed.

(** C5.  On a one-shot property whose latch is not set yet (as after
    construction with [v0], with any observers registered since), a first
    [set(v, true, false)] with [v] equal to the current value delivers no
    notification and leaves the value and the observers as they were, yet
    sets the latch; after it every sequence of [set] and assignment calls,
    whatever the values and flags, changes nothing and delivers nothing. *)
Theorem one_shot_suppressed_first_write (p : OneShotProperty.t T)
    (tr : ReadOnlyProperty.calls T) (v : T)
    (later : list (OneShotProperty.write T)) :
  OneShotProperty.flag_ p = false ->
  op_eq v (OneShotProperty.get p) = true ->
  let st1 := OneShotProperty.set v true false (p, tr) in
  snd st1 = tr
  /\ OneShotProperty.base (fst st1) = OneShotProperty.base p
  /\ OneShotProperty.flag_ (fst st1) = true
  /\ OneShotProperty.do_writes later st1 = st1.
Proof.
  intros Hflag Heq st1.
  assert (Hst1 : st1 = (OneShotProperty.Make (OneShotProperty.base p) true, tr)).
  { subst st1. unfold OneShotProperty.set. simpl. rewrite Hflag.
    unfold Property.set, PropertySetter.set, ReadOnlyProperty.set. simpl.
    unfold OneShotProperty.get, ReadOnlyProperty.get in Heq. rewrite Heq.
    reflexivity. }
  rewrite Hst1. simpl. repeat split.
  apply one_shot_writes_latched. reflexivity.
Qed.

(** C6.  On a one-shot property whose latch is not set yet, a first
    [set(a, notify, force)] with [a] different from the current value stores
    [a]: [get()] gives [a].  A following [set(b, notify', force')], for any
    [b] and in particular for [b != a], returns normally and leaves
    everything as it was: [get()] still gives [a] and nothing is
    delivered. *)
Theorem one_shot_second_write_ignored (p : OneShotProperty.t T)
    (tr : ReadOnlyProperty.calls T) (a b : T)
    (notify_ force notify' force' : bool) :
  OneShotProperty.flag_ p = false ->
  op_eq a (OneShotProperty.get p) = false ->
  let st1 := OneShotProperty.set a notify_ force (p, tr) in
  let st2 := OneShotProperty.set b notify' force' st1 in
  OneShotProperty.get (fst st1) = a
  /\ OneShotProperty.get (fst st2) = a
  /\ snd st2 = snd st1
  /\ st2 = st1.
Proof.
  intros Hflag Hne st1 st2.
  assert (Hlatched : OneShotProperty.flag_ (fst st1) = true).
  { subst st1. unfold OneShotProperty.set. simpl. rewrite Hflag. reflexivity. }
  assert (Hget : OneShotProperty.get (fst st1) = a).
  { subst st1. unfold OneShotProperty.set. simpl. rewrite Hflag.
    unfold Property.set, PropertySetter.set, ReadOnlyProperty.set. simpl.
    unfold OneShotProperty.get, ReadOnlyProperty.get in Hne. rewrite Hne. simpl.
    destruct notify_; [rewrite notify_delivers|]; reflexivity. }
  assert (Hsame : st2 = st1).
  { subst st2. unfold OneShotProperty.set at 1. rewrite Hlatched. reflexivity. }
  rewrite Hsame. auto.
Qed.

(** C9.  Once the latch of a one-shot property is set, [set(v, notify,
    force)] leaves the value, the latch, the channel and the trace as they
    were, for every [v], [notify] and [force]: the latch is tested before
    [force] is looked at.  The same holds for assignment. *)
Theorem one_shot_latched_frame (p : OneShotProperty.t T)
    (tr : ReadOnlyProperty.calls T) (v : T) (notify_ force : bool) :
  OneShotProperty.flag_ p = true ->
  OneShotProperty.set v notify_ force (p, tr) = (p, tr)
  /\ OneShotProperty.assign v (p, tr) = (p, tr).
Proof.
  intros Hflag. unfold OneShotProperty.set, OneShotProperty.assign. simpl.
  rewrite Hflag. split; reflexivity.
Qed.

End PROPERTY_FACTS.

(** ** Getters *)

Section GETTER_FACTS.
Context {T E : Type}.

Lemma call_returns_iff (f : Getter.getter_fn T E) (e : E) :
  (exists v, Getter.call f e = Getter.Returns v) <-> is_Some f.
Proof.
  destruct f as [g|]; simpl; split.
  - intros _. eexists. reflexivity.
  - intros _. eexists. reflexivity.
  - intros [v Hv]. discriminate.
  - intros [g Hg]. discriminate.
Qed.

(** C7, amended.  The wrapped function of a getter may be absent (a
    default-constructed getter has none).  The boolean conversion is
    defined on the observer facade, not on the getter; on the facade
    [g.observer()] made from the getter as it is now, the conversion is
    true exactly when a function is bound, that is exactly when [g.get()]
    returns a value, and false exactly when [g.get()] would fail with an
    invocation of an empty function; the facade's own [get()] agrees with
    the getter's.  So the caller can tell without calling [get()]. *)
Theorem getter_bool_reports_bound (g : Getter.t T E) (e : E) :
  (Getter.observer_bool (Getter.observer g) = true
     <-> exists v, Getter.get g e = Getter.Returns v)
  /\ (Getter.observer_bool (Getter.observer g) = false
     <-> Getter.get g e = Getter.BadFunctionCall)
  /\ Getter.observer_get (Getter.observer g) e = Getter.get g e
  /\ Getter.observer_bool (Getter.observer (Getter.default (T:=T) (E:=E)))
       = false.
Proof.
  unfold Getter.observer_bool, Getter.observer, Getter.get, Getter.observer_get.
  simpl. destruct (Getter.getter_ g) as [f|]; simpl.
  - repeat split; try discriminate; eauto.
  - repeat split; try discriminate; auto. intros [v Hv]. discriminate.
Qed.

End GETTER_FACTS.

(** ** Expiry tokens and the attacher: the primitives *)

Import Expiry.

Section EXPIRY_FACTS.
Variable hash : addr -> nat.

Lemma occurrences_app (e : event) (tr1 tr2 : list event) :
  occurrences e (tr1 ++ tr2) = occurrences e tr1 + occurrences e tr2.
Proof. unfold occurrences. rewrite filter_app, length_app. reflexivity. Qed.

Lemma occurrences_log (e e' : event) (w : world) :
  occurrences e (trace (log e' w)) =
    occurrences e (trace w) + (if bool_decide (e' = e) then 1 else 0).
Proof.
  unfold log. simpl. rewrite occurrences_app. f_equal.
  unfold occurrences. rewrite filter_cons, filter_nil.
  destruct (decide (e' = e)) as [Heq|Hne].
  - rewrite bool_decide_eq_true_2 by exact Heq. reflexivity.
  - rewrite bool_decide_eq_false_2 by exact Hne. reflexivity.
Qed.

Lemma lookup_slot_disconnect (c' c : cn) (w : world) :
  lookup_slot c' (cn_disconnect c w) =
    if decide (c' = c) then unplug <$> lookup_slot c w else lookup_slot c' w.
Proof.
  destruct c as [o i], c' as [o' i']. unfold lookup_slot, cn_disconnect. simpl.
  destruct (decide (o' = o)) as [->|Ho].
  - rewrite lookup_alter_eq.
    destruct (decide (i' = i)) as [->|Hi].
    + rewrite decide_True by reflexivity.
      destruct (heap w !! o) as [t|]; simpl; [|reflexivity].
      unfold disconnect. apply list_lookup_alter_eq.
    + rewrite decide_False by congruence.
      destruct (heap w !! o) as [t|]; simpl; [|reflexivity].
      unfold disconnect. apply list_lookup_alter_ne. congruence.
  - rewrite lookup_alter_ne by congruence.
    rewrite decide_False by congruence. reflexivity.
Qed.

(** Disconnecting clears flags and nothing else: a slot seen afterwards was
    there before, with the same callable, and connected if it still is. *)
Lemma lookup_slot_disconnect_inv (c' c : cn) (w : world) (s : slot slot_fn) :
  lookup_slot c' (cn_disconnect c w) = Some s ->
  exists s0, lookup_slot c' w = Some s0
    /\ slot_target s0 = slot_target s
    /\ (slot_connected s = true -> slot_connected s0 = true /\ c' <> c).
Proof.
  rewrite lookup_slot_disconnect. destruct (decide (c' = c)) as [->|Hne].
  - destruct (lookup_slot c w) as [s0|]; simpl; [|discriminate].
    intros [= <-]. exists s0. simpl. repeat split; discriminate.
  - intros Hs. exists s. auto.
Qed.

Lemma heap_disconnect_is_Some (c : cn) (w : world) (o : addr) :
  is_Some (heap (cn_disconnect c w) !! o) <-> is_Some (heap w !! o).
Proof.
  unfold cn_disconnect. simpl. rewrite lookup_alter_is_Some. reflexivity.
Qed.


Lemma lookup_slot_set_expired (c : cn) (o : addr) (w : world) :
  lookup_slot c (set_expired o w) = lookup_slot c w.
Proof.
  unfold lookup_slot, set_expired. simpl.
  destruct (decide (cn_object c = o)) as [->|Hne].
  - rewrite lookup_alter_eq. destruct (heap w !! o); reflexivity.
  - rewrite lookup_alter_ne by congruence. reflexivity.
Qed.

Lemma heap_set_expired_is_Some (o o' : addr) (w : world) :
  is_Some (heap (set_expired o w) !! o') <-> is_Some (heap w !! o').
Proof. unfold set_expired. simpl. rewrite lookup_alter_is_Some. reflexivity. Qed.

(** Connecting a callable to the signal of a live token. *)
Lemma observe_expiry_Some (o : addr) (f : slot_fn) (w : world) (t : expiry_token) :
  heap w !! o = Some t ->
  observe_expiry o f w =
    Some (World (<[o := ExpiryToken (signal_ t ++ [Slot f true]) (expired_ t)]> (heap w))
                (attached_objects_ w) (trace w),
          Cn o (length (signal_ t))).
Proof. intros Ht. unfold observe_expiry. rewrite Ht. reflexivity. Qed.

Lemma lookup_slot_connect (c : cn) (o : addr) (f : slot_fn) (w : world)
    (t : expiry_token) (r : gmap nat cn) (tr : list event) :
  heap w !! o = Some t ->
  lookup_slot c
    (World (<[o := ExpiryToken (signal_ t ++ [Slot f true]) (expired_ t)]> (heap w)) r tr) =
    if decide (c = Cn o (length (signal_ t))) then Some (Slot f true)
    else lookup_slot c w.
Proof.
  intros Ht. destruct c as [o' i]. unfold lookup_slot. simpl.
  destruct (decide (o' = o)) as [->|Ho].
  - rewrite lookup_insert_eq, Ht. simpl.
    destruct (decide (i = length (signal_ t))) as [->|Hi].
    + rewrite decide_True by reflexivity.
      rewrite lookup_app_r by lia. rewrite Nat.sub_diag. reflexivity.
    + rewrite decide_False by congruence.
      destruct (decide (i < length (signal_ t))) as [Hlt|Hge].
      * rewrite lookup_app_l by exact Hlt. reflexivity.
      * rewrite !lookup_ge_None_2; [reflexivity|lia|].
        rewrite length_app. simpl. lia.
  - rewrite lookup_insert_ne by congruence.
    rewrite decide_False by congruence. reflexivity.
Qed.

(** *** The invariant is kept *)

Lemma attacher_inv_same (w w' : world) :
  (forall c, lookup_slot c w' = lookup_slot c w) ->
  (forall o, is_Some (heap w' !! o) <-> is_Some (heap w !! o)) ->
  attached_objects_ w' = attached_objects_ w ->
  attacher_inv hash w -> attacher_inv hash w'.
Proof.
  intros Hslot Hheap Hreg [Htr Hpr]. split.
  - intros c s x Hs. rewrite Hslot in Hs. rewrite Hreg. eauto.
  - intros k c Hk Hlive. rewrite Hreg in Hk. rewrite Hheap in Hlive.
    rewrite Hslot. eauto.
Qed.

Lemma attacher_inv_log (e : event) (w : world) :
  attacher_inv hash w -> attacher_inv hash (log e w).
Proof. apply attacher_inv_same; reflexivity || (intros; reflexivity). Qed.

Lemma attacher_inv_set_expired (o : addr) (w : world) :
  attacher_inv hash w -> attacher_inv hash (set_expired o w).
Proof.
  apply attacher_inv_same.
  - intros c. apply lookup_slot_set_expired.
  - intros o'. apply heap_set_expired_is_Some.
  - reflexivity.
Qed.

Lemma registry_private_disconnect (c : cn) (w : world) (r : gmap nat cn) :
  (forall k c', r !! k = Some c' -> attached_objects_ w !! k = Some c') ->
  registry_private hash w ->
  registry_private hash
    (cn_disconnect c (World (heap w) r (trace w))).
Proof.
  intros Hsub Hpr k c' Hk Hlive. simpl in Hk.
  rewrite heap_disconnect_is_Some in Hlive. simpl in Hlive.
  destruct (Hpr k c' (Hsub _ _ Hk) Hlive) as (s & x & Hs & Hx & Hkey).
  rewrite lookup_slot_disconnect.
  change (lookup_slot c (World (heap w) r (trace w))) with (lookup_slot c w).
  change (lookup_slot c' (World (heap w) r (trace w))) with (lookup_slot c' w).
  destruct (decide (c' = c)) as [->|Hne].
  - rewrite Hs. simpl. exists (unplug s), x. auto.
  - exists s, x. auto.
Qed.

Lemma attacher_inv_disconnect (c : cn) (w : world) :
  attacher_inv hash w -> attacher_inv hash (cn_disconnect c w).
Proof.
  intros [Htr Hpr]. split.
  - intros c' s x Hs Htarget Hconn.
    apply lookup_slot_disconnect_inv in Hs as (s0 & Hs0 & Ht0 & Hc0).
    destruct (Hc0 Hconn) as [Hconn0 _].
    apply (Htr c' s0 x); congruence.
  - destruct w as [h r tr].
    apply (registry_private_disconnect c (World h r tr) r); auto.
Qed.

Lemma attacher_inv_registry_erase (k : nat) (w : world) :
  attacher_inv hash w -> attacher_inv hash (registry_erase k w).
Proof.
  intros Hinv. unfold registry_erase.
  destruct (attached_objects_ w !! k) as [c|] eqn:Hk; [|exact Hinv].
  destruct Hinv as [Htr Hpr]. split.
  - intros c' s x Hs Htarget Hconn.
    apply lookup_slot_disconnect_inv in Hs as (s0 & Hs0 & Ht0 & Hc0).
    destruct (Hc0 Hconn) as [Hconn0 Hne].
    assert (Hreg : attached_objects_ w !! hash x = Some c').
    { apply (Htr c' s0 x); [exact Hs0|congruence|exact Hconn0]. }
    simpl. rewrite lookup_delete_ne; [exact Hreg|].
    intros ->. congruence.
  - apply registry_private_disconnect; [|exact Hpr].
    intros k' c' Hk'. apply lookup_delete_Some in Hk' as [_ Hk']. exact Hk'.
Qed.

Lemma attacher_inv_detach (x : addr) (w : world) :
  attacher_inv hash w -> attacher_inv hash (detach hash x w).
Proof.
  intros Hinv. unfold detach. apply attacher_inv_log, attacher_inv_registry_erase, Hinv.
Qed.

Lemma attacher_inv_run_slot (c : cn) (f : slot_fn) (w : world) :
  attacher_inv hash w -> attacher_inv hash (run_slot hash c f w).
Proof.
  intros Hinv. destruct f as [|x]; simpl.
  - apply attacher_inv_log, Hinv.
  - apply attacher_inv_detach, Hinv.
Qed.

(** *** One slot of a firing *)

Local Abbreviation call_of o :=
  (call_slot (fun i w => lookup_slot (Cn o i) w)
             (fun i f w => run_slot hash (Cn o i) f w)).
Local Abbreviation dispatch o :=
  (invoke_ids (fun i w => lookup_slot (Cn o i) w)
              (fun i f w => run_slot hash (Cn o i) f w)).

Lemma attacher_inv_call (o : addr) (i : nat) (w : world) :
  attacher_inv hash w -> attacher_inv hash (call_of o w i).
Proof.
  intros Hinv. unfold call_slot.
  destruct (lookup_slot (Cn o i) w) as [s|]; [|exact Hinv].
  destruct (slot_connected s); [|exact Hinv].
  apply attacher_inv_run_slot, Hinv.
Qed.

Lemma attacher_inv_dispatch (o : addr) (ids : list nat) (w : world) :
  attacher_inv hash w -> attacher_inv hash (dispatch o ids w).
Proof.
  revert w. induction ids as [|i ids IH]; intros w Hinv; simpl; [exact Hinv|].
  apply IH, attacher_inv_call, Hinv.
Qed.

Lemma trace_registry_erase (k : nat) (w : world) :
  trace (registry_erase k w) = trace w.
Proof.
  unfold registry_erase. destruct (attached_objects_ w !! k); reflexivity.
Qed.

Lemma trace_run_slot (c : cn) (f : slot_fn) (w : world) :
  trace (run_slot hash c f w) = trace w ++ [slot_event c f].
Proof.
  destruct f as [|x]; simpl; [reflexivity|].
  rewrite trace_registry_erase. reflexivity.
Qed.

Lemma trace_call (o : addr) (i : nat) (w : world) :
  trace (call_of o w i) = trace w ++ option_list (slot_event_at o w i).
Proof.
  unfold call_slot, slot_event_at.
  destruct (lookup_slot (Cn o i) w) as [s|]; simpl; [|by rewrite app_nil_r].
  destruct (slot_connected s); simpl; [|by rewrite app_nil_r].
  apply trace_run_slot.
Qed.

(** Under the invariant a slot that runs touches no slot but its own: the
    closure [on_expired x] releases the registry entry of [x], and that
    entry is the closure's own connection. *)
Lemma lookup_slot_run_slot (c c' : cn) (s : slot slot_fn) (w : world) :
  attacher_inv hash w ->
  lookup_slot c w = Some s -> slot_connected s = true ->
  c' <> c ->
  lookup_slot c' (run_slot hash c (slot_target s) w) = lookup_slot c' w.
Proof.
  intros [Htr _] Hs Hconn Hne.
  destruct (slot_target s) as [|x] eqn:Htarget; simpl; [reflexivity|].
  unfold detach, registry_erase.
  rewrite (Htr c s x Hs Htarget Hconn).
  change (lookup_slot c' (log ?e ?w)) with (lookup_slot c' w).
  rewrite lookup_slot_disconnect, decide_False by exact Hne. reflexivity.
Qed.

Lemma lookup_slot_call (o : addr) (i : nat) (c' : cn) (w : world) :
  attacher_inv hash w -> c' <> Cn o i ->
  lookup_slot c' (call_of o w i) = lookup_slot c' w.
Proof.
  intros Hinv Hne. unfold call_slot.
  destruct (lookup_slot (Cn o i) w) as [s|] eqn:Hs; [|reflexivity].
  destruct (slot_connected s) eqn:Hconn; [|reflexivity].
  apply lookup_slot_run_slot; assumption.
Qed.

Lemma slot_event_at_call (o : addr) (i j : nat) (w : world) :
  attacher_inv hash w -> j <> i ->
  slot_event_at o (call_of o w i) j = slot_event_at o w j.
Proof.
  intros Hinv Hne. unfold slot_event_at.
  rewrite lookup_slot_call; [reflexivity|exact Hinv|congruence].
Qed.

(** The events of a firing, in order: the slots that are connected when
    the firing starts, each once. *)
Lemma trace_dispatch (o : addr) (ids : list nat) (w : world) :
  attacher_inv hash w -> NoDup ids ->
  trace (dispatch o ids w) = trace w ++ omap (slot_event_at o w) ids.
Proof.
  revert w. induction ids as [|i ids IH]; intros w Hinv Hnd; simpl.
  - by rewrite app_nil_r.
  - apply NoDup_cons in Hnd as [Hi Hnd].
    rewrite IH by (auto using attacher_inv_call).
    rewrite trace_call, <- app_assoc. f_equal.
    assert (Hsame : omap (slot_event_at o (call_of o w i)) ids
                    = omap (slot_event_at o w) ids).
    { apply list_omap_ext, Forall2_same_length_lookup_2; [reflexivity|].
      intros k j j' Hj Hj'. assert (j' = j) as -> by congruence.
      apply slot_event_at_call; [exact Hinv|].
      intros ->. apply Hi. eapply list_elem_of_lookup_2, Hj. }
    rewrite Hsame. destruct (slot_event_at o w i); reflexivity.
Qed.


(** *** What a firing leaves alone *)

Lemma expired_disconnect (c : cn) (w : world) (o : addr) :
  expired_ <$> heap (cn_disconnect c w) !! o = expired_ <$> heap w !! o.
Proof.
  unfold cn_disconnect. simpl.
  destruct (decide (cn_object c = o)) as [->|Hne].
  - rewrite lookup_alter_eq. destruct (heap w !! o); reflexivity.
  - rewrite lookup_alter_ne by exact Hne. reflexivity.
Qed.

Lemma expired_registry_erase (k : nat) (w : world) (o : addr) :
  expired_ <$> heap (registry_erase k w) !! o = expired_ <$> heap w !! o.
Proof.
  unfold registry_erase. destruct (attached_objects_ w !! k); [|reflexivity].
  rewrite expired_disconnect. reflexivity.
Qed.

Lemma expired_run_slot (c : cn) (f : slot_fn) (w : world) (o : addr) :
  expired_ <$> heap (run_slot hash c f w) !! o = expired_ <$> heap w !! o.
Proof.
  destruct f as [|x]; simpl; [reflexivity|]. apply expired_registry_erase.
Qed.

Lemma expired_call (o' : addr) (i : nat) (w : world) (o : addr) :
  expired_ <$> heap (call_of o' w i) !! o = expired_ <$> heap w !! o.
Proof.
  unfold call_slot. destruct (lookup_slot (Cn o' i) w) as [s|]; [|reflexivity].
  destruct (slot_connected s); [|reflexivity]. apply expired_run_slot.
Qed.

Lemma expired_dispatch (o' : addr) (ids : list nat) (w : world) (o : addr) :
  expired_ <$> heap (dispatch o' ids w) !! o = expired_ <$> heap w !! o.
Proof.
  revert w. induction ids as [|i ids IH]; intros w; simpl; [reflexivity|].
  rewrite IH. apply expired_call.
Qed.

Lemma lookup_slot_dispatch (o : addr) (ids : list nat) (c : cn) (w : world) :
  attacher_inv hash w ->
  (forall i, i ∈ ids -> c <> Cn o i) ->
  lookup_slot c (dispatch o ids w) = lookup_slot c w.
Proof.
  revert w. induction ids as [|i ids IH]; intros w Hinv Hc; simpl; [reflexivity|].
  rewrite IH.
  - apply lookup_slot_call; [exact Hinv|]. apply Hc. left.
  - apply attacher_inv_call, Hinv.
  - intros j Hj. apply Hc. right. exact Hj.
Qed.

Lemma registry_run_slot (c : cn) (f : slot_fn) (w : world) (k : nat) :
  attached_objects_ (run_slot hash c f w) !! k =
    match f with
    | user_slot => attached_objects_ w !! k
    | on_expired x =>
        if decide (hash x = k) then None else attached_objects_ w !! k
    end.
Proof.
  destruct f as [|x]; simpl; [reflexivity|]. unfold registry_erase.
  destruct (attached_objects_ w !! hash x) as [c0|] eqn:Hx; simpl.
  - destruct (decide (hash x = k)) as [<-|Hne].
    + apply lookup_delete_eq.
    + apply lookup_delete_ne, Hne.
  - destruct (decide (hash x = k)) as [<-|Hne]; [exact Hx|reflexivity].
Qed.

(** The registry only loses entries while a signal fires. *)
Lemma registry_call_shrinks (o : addr) (i : nat) (w : world) (k : nat) (c : cn) :
  attached_objects_ (call_of o w i) !! k = Some c ->
  attached_objects_ w !! k = Some c.
Proof.
  unfold call_slot. destruct (lookup_slot (Cn o i) w) as [s|]; [|auto].
  destruct (slot_connected s); [|auto].
  rewrite registry_run_slot. destruct (slot_target s) as [|x]; [auto|].
  destruct (decide (hash x = k)); [discriminate|auto].
Qed.

Lemma registry_dispatch_shrinks (o : addr) (ids : list nat) (w : world)
    (k : nat) (c : cn) :
  attached_objects_ (dispatch o ids w) !! k = Some c ->
  attached_objects_ w !! k = Some c.
Proof.
  revert w. induction ids as [|i ids IH]; intros w; simpl; [auto|].
  intros Hk. eapply registry_call_shrinks, IH, Hk.
Qed.

Lemma registry_call_other (o : addr) (i : nat) (w : world) (k : nat) (c : cn) :
  attacher_inv hash w ->
  attached_objects_ w !! k = Some c -> c <> Cn o i ->
  attached_objects_ (call_of o w i) !! k = Some c.
Proof.
  intros [Htr _] Hk Hne. unfold call_slot.
  destruct (lookup_slot (Cn o i) w) as [s|] eqn:Hs; [|exact Hk].
  destruct (slot_connected s) eqn:Hconn; [|exact Hk].
  rewrite registry_run_slot. destruct (slot_target s) as [|x] eqn:Htarget; [exact Hk|].
  destruct (decide (hash x = k)) as [<-|_]; [|exact Hk].
  pose proof (Htr _ _ _ Hs Htarget Hconn) as Hreg. congruence.
Qed.

Lemma registry_dispatch_other (o : addr) (ids : list nat) (w : world)
    (k : nat) (c : cn) :
  attacher_inv hash w ->
  attached_objects_ w !! k = Some c ->
  (forall i, i ∈ ids -> c <> Cn o i) ->
  attached_objects_ (dispatch o ids w) !! k = Some c.
Proof.
  revert w. induction ids as [|i ids IH]; intros w Hinv Hk Hc; simpl; [exact Hk|].
  apply IH.
  - apply attacher_inv_call, Hinv.
  - apply registry_call_other; [exact Hinv|exact Hk|]. apply Hc. left.
  - intros j Hj. apply Hc. right. exact Hj.
Qed.

(** A connected closure [on_expired x] that the firing reaches releases
    the registry entry of [x]. *)
Lemma registry_dispatch_released (o : addr) (ids : list nat) (w : world)
    (x : addr) (i : nat) (s : slot slot_fn) :
  attacher_inv hash w ->
  i ∈ ids ->
  lookup_slot (Cn o i) w = Some s ->
  slot_connected s = true -> slot_target s = on_expired x ->
  attached_objects_ (dispatch o ids w) !! hash x = None.
Proof.
  revert w. induction ids as [|j ids IH]; intros w Hinv Hi Hs Hconn Htarget.
  - by apply elem_of_nil in Hi.
  - simpl. destruct (decide (j = i)) as [->|Hne].
    + destruct (attached_objects_ (dispatch o ids (call_of o w i)) !! hash x)
        as [c|] eqn:Hk; [|reflexivity].
      apply registry_dispatch_shrinks in Hk. revert Hk.
      unfold call_slot. rewrite Hs, Hconn, registry_run_slot, Htarget.
      rewrite decide_True by reflexivity. discriminate.
    + apply elem_of_cons in Hi as [->|Hi]; [congruence|].
      apply (IH _ (attacher_inv_call _ _ _ Hinv) Hi); [|exact Hconn|exact Htarget].
      rewrite lookup_slot_call; [exact Hs|exact Hinv|congruence].
Qed.

(** *** Counting the events of a firing *)

Lemma occurrences_cons (e e' : event) (tr : list event) :
  occurrences e (e' :: tr) =
    (if bool_decide (e' = e) then 1 else 0) + occurrences e tr.
Proof.
  unfold occurrences. rewrite filter_cons.
  destruct (decide (e' = e)) as [Heq|Hne].
  - rewrite bool_decide_eq_true_2 by exact Heq. reflexivity.
  - rewrite bool_decide_eq_false_2 by exact Hne. reflexivity.
Qed.

Lemma occurrences_omap_unique {A : Type} `{EqDecision A}
    (g : A -> option event) (l : list A) (e : event) (a0 : A) :
  NoDup l ->
  (forall a, a ∈ l -> g a = Some e -> a = a0) ->
  occurrences e (omap g l) =
    if bool_decide (a0 ∈ l /\ g a0 = Some e) then 1 else 0.
Proof.
  induction l as [|a l IH]; intros Hnd Huniq.
  - rewrite bool_decide_eq_false_2; [reflexivity|].
    intros [Hin _]. by apply elem_of_nil in Hin.
  - apply NoDup_cons in Hnd as [Ha Hnd].
    assert (IH' := IH Hnd (fun b Hb => Huniq b (list_elem_of_further _ _ _ Hb))).
    change (omap g (a :: l)) with
      (match g a with Some y => y :: omap g l | None => omap g l end).
    destruct (decide (g a = Some e)) as [Hga|Hga].
    + assert (a = a0) as <- by (apply Huniq; [left|exact Hga]).
      rewrite Hga, occurrences_cons, IH'.
      rewrite bool_decide_eq_true_2 by reflexivity.
      rewrite (bool_decide_eq_false_2 (a ∈ l /\ _)) by tauto.
      rewrite bool_decide_eq_true_2; [reflexivity|]. split; [left|reflexivity].
    + assert (Hiff : (a0 ∈ a :: l /\ g a0 = Some e) <-> (a0 ∈ l /\ g a0 = Some e)).
      { rewrite elem_of_cons. split; [|tauto].
        intros [[->|Hin] Hg]; [contradiction|tauto]. }
      rewrite (bool_decide_ext _ _ Hiff), <- IH'.
      destruct (g a) as [y|]; [|reflexivity].
      rewrite occurrences_cons, bool_decide_eq_false_2; [reflexivity|congruence].
Qed.


Lemma if_bool_decide_nat (P : Prop) `{Decision P} (b : bool) :
  (P <-> b = true) ->
  (if bool_decide P then 1 else 0) = (if b then 1 else 0).
Proof.
  intros Hiff. destruct b.
  - rewrite bool_decide_eq_true_2; [reflexivity|]. by apply Hiff.
  - rewrite bool_decide_eq_false_2; [reflexivity|]. rewrite Hiff. discriminate.
Qed.

Lemma slot_event_at_Some (o : addr) (w : world) (i : nat) (e : event) :
  slot_event_at o w i = Some e <->
  exists s, lookup_slot (Cn o i) w = Some s /\ slot_connected s = true
            /\ slot_event (Cn o i) (slot_target s) = e.
Proof.
  unfold slot_event_at. destruct (lookup_slot (Cn o i) w) as [s|].
  - destruct (slot_connected s) eqn:Hconn; split.
    + intros [= <-]. eauto.
    + intros (s' & [= <-] & _ & <-). reflexivity.
    + discriminate.
    + intros (s' & [= <-] & Hc & _). congruence.
  - split; [discriminate|]. intros (s' & Hs' & _). discriminate.
Qed.

Lemma slot_is_true (w : world) (c : cn) (f : slot_fn) :
  slot_is w c f = true <->
  exists s, lookup_slot c w = Some s /\ slot_connected s = true
            /\ slot_target s = f.
Proof.
  unfold slot_is. destruct (lookup_slot c w) as [s|].
  - rewrite andb_true_iff, bool_decide_eq_true. split.
    + intros [Hc Ht]. eauto.
    + intros (s' & [= <-] & Hc & Ht). auto.
  - split; [discriminate|]. intros (s' & Hs' & _). discriminate.
Qed.

Lemma lookup_slot_lt (o : addr) (i : nat) (w : world) (t : expiry_token)
    (s : slot slot_fn) :
  heap w !! o = Some t -> lookup_slot (Cn o i) w = Some s ->
  i ∈ seq 0 (length (signal_ t)).
Proof.
  intros Ht. unfold lookup_slot. simpl. rewrite Ht. intros Hs.
  apply elem_of_seq. apply lookup_lt_Some in Hs. lia.
Qed.

(** A connected user callback is called once by a firing of its signal,
    and no other connection is called. *)
Lemma occurrences_expiry_called (o : addr) (w : world) (c : cn) :
  occurrences (Called c) (expiry_events o w) =
    if observes w o c then 1 else 0.
Proof.
  unfold expiry_events, observes. destruct (heap w !! o) as [t|] eqn:Ht.
  - rewrite (occurrences_omap_unique _ _ _ (cn_slot c)).
    + apply if_bool_decide_nat.
      rewrite andb_true_iff, bool_decide_eq_true, slot_is_true, slot_event_at_Some.
      split.
      * intros (_ & s & Hs & Hconn & Hev).
        destruct (slot_target s) eqn:Htarget; simpl in Hev; [|discriminate].
        injection Hev as <-. simpl. eauto.
      * intros (<- & s & Hs & Hconn & Htarget). destruct c as [o i]. simpl in *.
        split; [eapply lookup_slot_lt; eassumption|].
        exists s. rewrite Htarget. auto.
    + apply NoDup_seq.
    + intros i _ Hi. apply slot_event_at_Some in Hi as (s & _ & _ & Hev).
      destruct (slot_target s); simpl in Hev; [|discriminate].
      injection Hev as <-. reflexivity.
  - destruct (decide (cn_object c = o)) as [<-|Hne].
    + unfold slot_is, lookup_slot. rewrite Ht, andb_false_r. reflexivity.
    + rewrite bool_decide_eq_false_2 by exact Hne. reflexivity.
Qed.

(** The owner's hook is called once with [Detach x] when the registry
    holds a connected closure for [x] on that signal, and not at all
    otherwise. *)
Lemma occurrences_expiry_detach (o : addr) (w : world) (x : addr) :
  closures_tracked hash w ->
  occurrences (Update (Detach x)) (expiry_events o w) =
    if attached_on hash w o x then 1 else 0.
Proof.
  intros Htr. unfold expiry_events, attached_on.
  destruct (heap w !! o) as [t|] eqn:Ht.
  - rewrite (occurrences_omap_unique _ _ _
               (from_option cn_slot 0 (attached_objects_ w !! hash x))).
    + apply if_bool_decide_nat. rewrite slot_event_at_Some. split.
      * intros (_ & s & Hs & Hconn & Hev).
        destruct (slot_target s) as [|x'] eqn:Htarget; simpl in Hev; [discriminate|].
        injection Hev as ->.
        pose proof (Htr _ _ _ Hs Htarget Hconn) as Hreg.
        destruct (attached_objects_ w !! hash x) as [c|]; simpl in *.
        -- injection Hreg as ->.
           rewrite andb_true_iff, bool_decide_eq_true, slot_is_true. eauto.
        -- discriminate.
      * destruct (attached_objects_ w !! hash x) as [c|]; [|discriminate].
        rewrite andb_true_iff, bool_decide_eq_true, slot_is_true.
        intros (<- & s & Hs & Hconn & Htarget). destruct c as [o i]. simpl in *.
        split; [eapply lookup_slot_lt; eassumption|].
        exists s. rewrite Htarget. auto.
    + apply NoDup_seq.
    + intros i _ Hi. apply slot_event_at_Some in Hi as (s & Hs & Hconn & Hev).
      destruct (slot_target s) as [|x'] eqn:Htarget; simpl in Hev; [discriminate|].
      injection Hev as ->.
      rewrite (Htr _ _ _ Hs Htarget Hconn). reflexivity.
  - destruct (attached_objects_ w !! hash x) as [c|]; [|reflexivity].
    destruct (decide (cn_object c = o)) as [<-|Hne].
    + unfold slot_is, lookup_slot. rewrite Ht, andb_false_r. reflexivity.
    + rewrite bool_decide_eq_false_2 by exact Hne. reflexivity.
Qed.

(** A firing never calls the hook with [Attach]. *)
Lemma occurrences_expiry_attach (o : addr) (w : world) (x : addr) :
  occurrences (Update (Attach x)) (expiry_events o w) = 0.
Proof.
  unfold expiry_events. destruct (heap w !! o) as [t|]; [|reflexivity].
  rewrite (occurrences_omap_unique _ _ _ 0).
  - rewrite bool_decide_eq_false_2; [reflexivity|].
    intros [_ Hev]. apply slot_event_at_Some in Hev as (s & _ & _ & Hev).
    destruct (slot_target s); discriminate.
  - apply NoDup_seq.
  - intros i _ Hev. apply slot_event_at_Some in Hev as (s & _ & _ & Hev).
    destruct (slot_target s); discriminate.
Qed.

(** *** [expire] *)

Lemma expire_done (o : addr) (w : world) (t : expiry_token) :
  heap w !! o = Some t -> expired_ t = true -> expire hash o w = Some w.
Proof. intros Ht He. unfold expire. rewrite Ht, He. reflexivity. Qed.

Lemma expire_alive (o : addr) (w : world) (t : expiry_token) :
  heap w !! o = Some t -> expired_ t = false ->
  expire hash o w =
    Some (dispatch o (seq 0 (length (signal_ t))) (set_expired o w)).
Proof.
  intros Ht He. unfold expire, signal_call. rewrite Ht, He.
  unfold set_expired at 1. simpl. rewrite lookup_alter_eq, Ht. reflexivity.
Qed.

Lemma expiry_events_set_expired (o o' : addr) (w : world) :
  expiry_events o (set_expired o' w) = expiry_events o w.
Proof.
  unfold expiry_events, set_expired. simpl.
  assert (Hlen : (fun t => length (signal_ t)) <$> alter (fun t => ExpiryToken (signal_ t) true) o' (heap w) !! o
                 = (fun t => length (signal_ t)) <$> heap w !! o).
  { destruct (decide (o' = o)) as [->|Hne].
    - rewrite lookup_alter_eq. destruct (heap w !! o); reflexivity.
    - rewrite lookup_alter_ne by exact Hne. reflexivity. }
  assert (Hev : forall i, slot_event_at o (set_expired o' w) i = slot_event_at o w i).
  { intros i. unfold slot_event_at. rewrite lookup_slot_set_expired. reflexivity. }
  unfold set_expired in Hev. simpl in Hev.
  destruct (alter _ o' (heap w) !! o) as [t1|], (heap w !! o) as [t2|];
    simpl in Hlen; try discriminate; [|reflexivity].
  injection Hlen as ->.
  apply list_omap_ext, Forall2_same_length_lookup_2; [reflexivity|].
  intros k j j' Hj Hj'. assert (j' = j) as -> by congruence. apply Hev.
Qed.

(** What the first [expire()] on a live token does: it succeeds, the token
    is expired afterwards, the trace grows by the events of one firing,
    the invariant is kept, and a further [expire()] changes nothing. *)
Lemma expire_spec (o : addr) (w : world) (t : expiry_token) :
  attacher_inv hash w ->
  heap w !! o = Some t -> expired_ t = false ->
  exists w1,
    expire hash o w = Some w1
    /\ attacher_inv hash w1
    /\ trace w1 = trace w ++ expiry_events o w
    /\ is_expired o w1 = Some true
    /\ expire hash o w1 = Some w1.
Proof.
  intros Hinv Ht He. eexists. split; [apply (expire_alive o w t Ht He)|].
  assert (Hinv' : attacher_inv hash (set_expired o w))
    by apply attacher_inv_set_expired, Hinv.
  assert (Hexp : is_expired o (dispatch o (seq 0 (length (signal_ t))) (set_expired o w))
                 = Some true).
  { unfold is_expired. rewrite expired_dispatch. unfold set_expired. simpl.
    rewrite lookup_alter_eq, Ht. reflexivity. }
  repeat split.
  - apply attacher_inv_dispatch, Hinv'.
  - apply attacher_inv_dispatch, Hinv'.
  - rewrite trace_dispatch by (exact Hinv' || apply NoDup_seq).
    change (trace (set_expired o w)) with (trace w). f_equal.
    rewrite <- (expiry_events_set_expired o o w).
    unfold expiry_events, set_expired at 2. simpl.
    rewrite lookup_alter_eq, Ht. reflexivity.
  - exact Hexp.
  - unfold is_expired in Hexp.
    destruct (heap (dispatch o _ (set_expired o w)) !! o) as [t1|] eqn:Ht1;
      [|discriminate].
    injection Hexp as Hexp. apply (expire_done _ _ t1 Ht1 Hexp).
Qed.


(** *** The operations keep the invariant *)

Lemma lookup_slot_fresh (o : addr) (w : world) (t : expiry_token) :
  heap w !! o = Some t -> lookup_slot (Cn o (length (signal_ t))) w = None.
Proof.
  intros Ht. unfold lookup_slot. simpl. rewrite Ht.
  apply lookup_ge_None_2. lia.
Qed.

Lemma heap_connect_is_Some (o o' : addr) (w : world) (t t' : expiry_token) :
  heap w !! o = Some t ->
  is_Some (<[o := t']> (heap w) !! o') <-> is_Some (heap w !! o').
Proof.
  intros Ht. rewrite lookup_insert_is_Some. split.
  - intros [<-|[_ H]]; [rewrite Ht; eauto|exact H].
  - intros H. destruct (decide (o = o')); auto.
Qed.

Lemma attacher_inv_observe_user (o : addr) (w w' : world) (c : cn) :
  attacher_inv hash w ->
  observe_expiry o user_slot w = Some (w', c) ->
  attacher_inv hash w'.
Proof.
  intros [Htr Hpr] Hobs. unfold observe_expiry in Hobs.
  destruct (heap w !! o) as [t|] eqn:Ht; [|discriminate].
  simpl in Hobs. injection Hobs as <- <-. split.
  - intros c' s x Hs Htarget Hconn. simpl.
    rewrite (lookup_slot_connect _ _ _ w t _ _ Ht) in Hs.
    destruct (decide (c' = Cn o (length (signal_ t)))) as [->|Hne].
    + injection Hs as <-. discriminate.
    + eauto.
  - intros k c' Hk Hlive. simpl in Hk, Hlive.
    rewrite (heap_connect_is_Some _ _ w t _ Ht) in Hlive.
    destruct (Hpr k c' Hk Hlive) as (s & x & Hs & Hx & Hkey).
    exists s, x. rewrite (lookup_slot_connect _ _ _ w t _ _ Ht).
    rewrite decide_False; [auto|].
    intros ->. rewrite (lookup_slot_fresh o w t Ht) in Hs. discriminate.
Qed.

Lemma lookup_slot_registry_assign (k : nat) (c0 c : cn) (w : world) :
  lookup_slot c (registry_assign k c0 w) =
    match attached_objects_ w !! k with
    | Some old =>
        if decide (c = old) then unplug <$> lookup_slot old w
        else lookup_slot c w
    | None => lookup_slot c w
    end.
Proof.
  unfold registry_assign. destruct (attached_objects_ w !! k) as [old|].
  - rewrite <- lookup_slot_disconnect. reflexivity.
  - reflexivity.
Qed.

Lemma registry_registry_assign (k k' : nat) (c0 : cn) (w : world) :
  attached_objects_ (registry_assign k c0 w) !! k' =
    if decide (k = k') then Some c0 else attached_objects_ w !! k'.
Proof.
  unfold registry_assign. simpl.
  destruct (attached_objects_ w !! k); simpl; apply lookup_insert.
Qed.

Lemma heap_registry_assign_is_Some (k : nat) (c0 : cn) (w : world) (o : addr) :
  is_Some (heap (registry_assign k c0 w) !! o) <-> is_Some (heap w !! o).
Proof.
  unfold registry_assign. simpl. destruct (attached_objects_ w !! k).
  - apply heap_disconnect_is_Some.
  - reflexivity.
Qed.

Lemma expired_registry_assign (k : nat) (c0 : cn) (w : world) (o : addr) :
  expired_ <$> heap (registry_assign k c0 w) !! o = expired_ <$> heap w !! o.
Proof.
  unfold registry_assign. simpl. destruct (attached_objects_ w !! k).
  - apply expired_disconnect.
  - reflexivity.
Qed.

Lemma trace_registry_assign (k : nat) (c0 : cn) (w : world) :
  trace (registry_assign k c0 w) = trace w.
Proof.
  unfold registry_assign. simpl. destruct (attached_objects_ w !! k); reflexivity.
Qed.

(** What [attach(object)] does on a live object: the owner's hook is
    called with [Attach object], the closure is connected at the back of
    the object's expiry signal, and the registry holds its connection
    under the key of the object. *)
Lemma attach_spec (x : addr) (w : world) (t : expiry_token) :
  attacher_inv hash w ->
  heap w !! x = Some t ->
  exists w1,
    attach hash x w = Some w1
    /\ attacher_inv hash w1
    /\ trace w1 = trace w ++ [Update (Attach x)]
    /\ attached_objects_ w1 !! hash x = Some (Cn x (length (signal_ t)))
    /\ lookup_slot (Cn x (length (signal_ t))) w1 = Some (Slot (on_expired x) true)
    /\ (forall o, is_expired o w1 = is_expired o w)
    /\ (forall k, hash x <> k -> attached_objects_ w1 !! k = attached_objects_ w !! k)
    /\ (forall c, c <> Cn x (length (signal_ t)) ->
         attached_objects_ w !! hash x <> Some c ->
         lookup_slot c w1 = lookup_slot c w).
Proof.
  intros [Htr Hpr] Ht.
  set (cnew := Cn x (length (signal_ t))).
  set (W1 := World (<[x := ExpiryToken (signal_ t ++ [Slot (on_expired x) true])
                                      (expired_ t)]> (heap w))
                   (attached_objects_ w) (trace w ++ [Update (Attach x)])).
  assert (Hattach : attach hash x w = Some (registry_assign (hash x) cnew W1)).
  { unfold attach.
    rewrite (observe_expiry_Some x _ (log (Update (Attach x)) w) t Ht). reflexivity. }
  assert (Hslot1 : forall c, lookup_slot c W1 =
            if decide (c = cnew) then Some (Slot (on_expired x) true)
            else lookup_slot c w).
  { intros c. apply (lookup_slot_connect _ _ _ w t _ _ Ht). }
  assert (Hfresh : lookup_slot cnew w = None) by apply (lookup_slot_fresh x w t Ht).
  assert (Hold : attached_objects_ w !! hash x <> Some cnew).
  { intros Hk.
    destruct (Hpr _ _ Hk) as (s & _ & Hs & _); [simpl; rewrite Ht; eauto|].
    congruence. }
  assert (Hslot : forall c, lookup_slot c (registry_assign (hash x) cnew W1) =
            if decide (c = cnew) then Some (Slot (on_expired x) true)
            else if decide (attached_objects_ w !! hash x = Some c)
                 then unplug <$> lookup_slot c w
                 else lookup_slot c w).
  { intros c. rewrite lookup_slot_registry_assign.
    change (attached_objects_ W1) with (attached_objects_ w).
    destruct (attached_objects_ w !! hash x) as [old|] eqn:Hk.
    - destruct (decide (c = old)) as [->|Hne].
      + rewrite decide_False by congruence.
        rewrite decide_True by reflexivity.
        rewrite Hslot1, decide_False by congruence. reflexivity.
      + rewrite Hslot1. destruct (decide (c = cnew)); [reflexivity|].
        rewrite decide_False by congruence. reflexivity.
    - rewrite Hslot1. destruct (decide (c = cnew)); [reflexivity|].
      rewrite decide_False by congruence. reflexivity. }
  assert (Hlive : forall o, is_Some (heap (registry_assign (hash x) cnew W1) !! o)
                            <-> is_Some (heap w !! o)).
  { intros o. rewrite heap_registry_assign_is_Some.
    apply (heap_connect_is_Some _ _ w t _ Ht). }
  exists (registry_assign (hash x) cnew W1).
  split; [exact Hattach|]. split; [split|].
  - intros c s y Hs Htarget Hconn. rewrite registry_registry_assign.
    change (attached_objects_ W1) with (attached_objects_ w).
    rewrite Hslot in Hs. destruct (decide (c = cnew)) as [->|Hne].
    + injection Hs as <-. simpl in Htarget.
      assert (y = x) as -> by congruence.
      rewrite decide_True by reflexivity. reflexivity.
    + destruct (decide (attached_objects_ w !! hash x = Some c)) as [Hk|Hk].
      * destruct (lookup_slot c w) as [s0|]; simpl in Hs; [|discriminate].
        injection Hs as <-. discriminate.
      * assert (Hc : attached_objects_ w !! hash y = Some c) by eauto.
        destruct (decide (hash x = hash y)) as [Heq|_]; [|exact Hc].
        rewrite Heq in Hk. contradiction.
  - intros k c Hk Hl. rewrite registry_registry_assign in Hk.
    change (attached_objects_ W1) with (attached_objects_ w) in Hk.
    rewrite Hlive in Hl. rewrite Hslot.
    destruct (decide (hash x = k)) as [<-|Hne].
    + injection Hk as <-. rewrite decide_True by reflexivity.
      exists (Slot (on_expired x) true), x. auto.
    + destruct (Hpr k c Hk Hl) as (s & y & Hs & Hy & Hkey).
      rewrite decide_False by congruence. rewrite Hs.
      destruct (decide (attached_objects_ w !! hash x = Some c)).
      * exists (unplug s), y. auto.
      * exists s, y. auto.
  - split; [|split; [|split; [|split; [|split]]]].
    + rewrite trace_registry_assign. reflexivity.
    + rewrite registry_registry_assign, decide_True by reflexivity. reflexivity.
    + rewrite Hslot, decide_True by reflexivity. reflexivity.
    + intros o. unfold is_expired. rewrite expired_registry_assign. simpl.
      destruct (decide (x = o)) as [<-|Hne].
      * rewrite lookup_insert_eq, Ht. reflexivity.
      * rewrite lookup_insert_ne by exact Hne. reflexivity.
    + intros k Hne. rewrite registry_registry_assign, decide_False by exact Hne.
      reflexivity.
    + intros c Hc Hk. rewrite Hslot, decide_False by exact Hc.
      rewrite decide_False by exact Hk. reflexivity.
Qed.


Lemma attacher_inv_expire (o : addr) (w w' : world) :
  attacher_inv hash w -> expire hash o w = Some w' -> attacher_inv hash w'.
Proof.
  intros Hinv Hexp. unfold expire in Hexp.
  destruct (heap w !! o) as [t|] eqn:Ht; [|discriminate].
  destruct (expired_ t) eqn:He.
  - injection Hexp as <-. exact Hinv.
  - destruct (expire_spec o w t Hinv Ht He) as (w1 & Hw1 & Hinv1 & _).
    unfold expire in Hw1. rewrite Ht, He in Hw1. congruence.
Qed.

Lemma lookup_slot_delete (c : cn) (o : addr) (w : world) (r : gmap nat cn)
    (tr : list event) :
  lookup_slot c (World (delete o (heap w)) r tr) =
    if decide (cn_object c = o) then None else lookup_slot c w.
Proof.
  unfold lookup_slot. simpl. destruct (decide (cn_object c = o)) as [->|Hne].
  - rewrite lookup_delete_eq. reflexivity.
  - rewrite lookup_delete_ne by congruence. reflexivity.
Qed.

Lemma attacher_inv_delete (o : addr) (w : world) :
  attacher_inv hash w ->
  attacher_inv hash (World (delete o (heap w)) (attached_objects_ w) (trace w)).
Proof.
  intros [Htr Hpr]. split.
  - intros c s x Hs. rewrite lookup_slot_delete in Hs.
    destruct (decide (cn_object c = o)); [discriminate|]. simpl. eauto.
  - intros k c Hk Hl. simpl in Hk, Hl. rewrite lookup_slot_delete.
    apply lookup_delete_is_Some in Hl as [Hne Hl].
    rewrite decide_False by congruence. eauto.
Qed.

Lemma attacher_inv_step (a : op) (w w' : world) :
  attacher_inv hash w -> step hash a w = Some w' -> attacher_inv hash w'.
Proof.
  intros Hinv Hstep. destruct a as [o|o|o|c|o|o|o]; simpl in Hstep.
  - eapply attacher_inv_expire; eassumption.
  - destruct (is_expired o w); [|discriminate]. injection Hstep as <-. exact Hinv.
  - destruct (observe_expiry o user_slot w) as [[w1 c]|] eqn:Hobs; [|discriminate].
    injection Hstep as <-. eapply attacher_inv_observe_user; eassumption.
  - destruct (lookup_slot c w) as [s|].
    + destruct (slot_target s); [|discriminate].
      injection Hstep as <-. apply attacher_inv_disconnect, Hinv.
    + injection Hstep as <-. exact Hinv.
  - unfold attach in Hstep.
    destruct (heap w !! o) as [t|] eqn:Ht.
    + destruct (attach_spec o w t Hinv Ht) as (w1 & Hw1 & Hinv1 & _).
      unfold attach in Hw1. congruence.
    + unfold observe_expiry in Hstep. simpl in Hstep. rewrite Ht in Hstep.
      discriminate.
  - injection Hstep as <-. apply attacher_inv_detach, Hinv.
  - unfold destroy in Hstep.
    destruct (expire hash o w) as [w1|] eqn:Hexp; [|discriminate].
    injection Hstep as <-.
    apply attacher_inv_delete. eapply attacher_inv_expire; eassumption.
Qed.

(** Every sequence of operations keeps the invariant. *)
Lemma attacher_inv_run (ops : list op) (w w' : world) :
  attacher_inv hash w -> run hash ops w = Some w' -> attacher_inv hash w'.
Proof.
  revert w. induction ops as [|a ops IH]; intros w Hinv Hrun; simpl in Hrun.
  - injection Hrun as <-. exact Hinv.
  - destruct (step hash a w) as [w1|] eqn:Hstep; [|discriminate].
    eapply IH; [|exact Hrun]. eapply attacher_inv_step; eassumption.
Qed.

(** The invariant holds when nothing is attached: the registry is empty
    and only user callbacks are connected. *)
Lemma attacher_inv_init (w : world) :
  attached_objects_ w = ∅ ->
  (forall c s, lookup_slot c w = Some s -> slot_target s = user_slot) ->
  attacher_inv hash w.
Proof.
  intros Hreg Huser. split.
  - intros c s x Hs Htarget. rewrite (Huser c s Hs) in Htarget. discriminate.
  - intros k c Hk. rewrite Hreg, lookup_empty in Hk. discriminate.
Qed.

(** *** The expired flag *)

Lemma is_expired_expire (o o' : addr) (w w' : world) :
  expire hash o' w = Some w' ->
  is_expired o w' = if decide (o = o') then Some true else is_expired o w.
Proof.
  unfold expire, is_expired. destruct (heap w !! o') as [t|] eqn:Ht; [|discriminate].
  destruct (expired_ t) eqn:He; intros [= <-].
  - destruct (decide (o = o')) as [->|_]; [|reflexivity].
    rewrite Ht. simpl. congruence.
  - unfold signal_call. unfold set_expired at 1. simpl.
    rewrite lookup_alter_eq, Ht. simpl. rewrite expired_dispatch.
    unfold set_expired. simpl. destruct (decide (o = o')) as [->|Hne].
    + rewrite lookup_alter_eq, Ht. reflexivity.
    + rewrite lookup_alter_ne by congruence. reflexivity.
Qed.

Lemma is_expired_observe (o o' : addr) (f : slot_fn) (w w' : world) (c : cn) :
  observe_expiry o' f w = Some (w', c) -> is_expired o w' = is_expired o w.
Proof.
  unfold observe_expiry, is_expired.
  destruct (heap w !! o') as [t|] eqn:Ht; [|discriminate].
  simpl. intros [= <- <-]. simpl. destruct (decide (o' = o)) as [<-|Hne].
  - rewrite lookup_insert_eq, Ht. reflexivity.
  - rewrite lookup_insert_ne by exact Hne. reflexivity.
Qed.

Lemma is_expired_delete (o o' : addr) (w : world) (r : gmap nat cn)
    (tr : list event) :
  is_expired o (World (delete o' (heap w)) r tr) =
    if decide (o = o') then None else is_expired o w.
Proof.
  unfold is_expired. simpl. destruct (decide (o = o')) as [->|Hne].
  - rewrite lookup_delete_eq. reflexivity.
  - rewrite lookup_delete_ne by congruence. reflexivity.
Qed.

(** One operation leaves the flag of a token as it was, or sets it, or
    (only [Destroy] of that very object) ends the token. *)
Lemma is_expired_step (a : op) (o : addr) (w w' : world) :
  step hash a w = Some w' ->
  is_expired o w' = is_expired o w
  \/ is_expired o w' = Some true
  \/ (is_expired o w' = None /\ a = Destroy o).
Proof.
  intros Hstep. destruct a as [o'|o'|o'|c|o'|o'|o']; simpl in Hstep.
  - rewrite (is_expired_expire o o' w w' Hstep). destruct (decide (o = o')); auto.
  - destruct (is_expired o' w); [|discriminate]. injection Hstep as <-. auto.
  - destruct (observe_expiry o' user_slot w) as [[w1 c]|] eqn:Hobs; [|discriminate].
    injection Hstep as <-. left. eapply is_expired_observe, Hobs.
  - destruct (lookup_slot c w) as [s|].
    + destruct (slot_target s); [|discriminate]. injection Hstep as <-.
      left. apply expired_disconnect.
    + injection Hstep as <-. auto.
  - unfold attach in Hstep.
    destruct (observe_expiry o' (on_expired o') (log (Update (Attach o')) w))
      as [[w1 c]|] eqn:Hobs; [|discriminate].
    injection Hstep as <-. left. unfold is_expired.
    rewrite expired_registry_assign.
    apply (is_expired_observe o _ _ _ _ _ Hobs).
  - injection Hstep as <-. left. unfold detach, is_expired. simpl.
    apply expired_registry_erase.
  - unfold destroy in Hstep.
    destruct (expire hash o' w) as [w1|] eqn:Hexp; [|discriminate].
    injection Hstep as <-. rewrite is_expired_delete.
    destruct (decide (o = o')) as [->|Hne]; [auto|].
    rewrite (is_expired_expire o o' w w1 Hexp), decide_False by exact Hne. auto.
Qed.


(** *** Calls of user callbacks *)

Lemma occurrences_called_dispatch_other (o : addr) (ids : list nat)
    (w : world) (c : cn) :
  cn_object c <> o ->
  occurrences (Called c) (trace (dispatch o ids w)) =
    occurrences (Called c) (trace w).
Proof.
  intros Hne. revert w. induction ids as [|i ids IH]; intros w; simpl; [reflexivity|].
  rewrite IH, trace_call, occurrences_app.
  destruct (slot_event_at o w i) as [e|] eqn:He; simpl; [|apply Nat.add_0_r].
  rewrite occurrences_cons, bool_decide_eq_false_2; [apply Nat.add_0_r|].
  intros ->. apply slot_event_at_Some in He as (s & _ & _ & Hev).
  destruct (slot_target s); simpl in Hev; [|discriminate].
  injection Hev as <-. apply Hne. reflexivity.
Qed.

Lemma trace_expire_called (o : addr) (w w' : world) (c : cn) :
  expire hash o w = Some w' ->
  is_expired (cn_object c) w <> Some false ->
  occurrences (Called c) (trace w') = occurrences (Called c) (trace w).
Proof.
  unfold expire. destruct (heap w !! o) as [t|] eqn:Ht; [|discriminate].
  destruct (expired_ t) eqn:He; intros [= <-] Hc; [reflexivity|].
  unfold signal_call. unfold set_expired at 1. simpl.
  rewrite lookup_alter_eq, Ht. simpl.
  rewrite occurrences_called_dispatch_other; [reflexivity|].
  intros Heq. apply Hc. unfold is_expired. rewrite Heq, Ht. simpl. congruence.
Qed.

Lemma trace_attach (o : addr) (w w' : world) :
  attach hash o w = Some w' -> trace w' = trace w ++ [Update (Attach o)].
Proof.
  unfold attach, observe_expiry. simpl.
  destruct (heap w !! o) as [t|]; [|discriminate]. simpl.
  intros [= <-]. apply trace_registry_assign.
Qed.

Lemma trace_detach (o : addr) (w : world) :
  trace (detach hash o w) = trace w ++ [Update (Detach o)].
Proof. unfold detach. simpl. rewrite trace_registry_erase. reflexivity. Qed.

Lemma occurrences_snoc_ne (e e' : event) (tr : list event) :
  e' <> e -> occurrences e (tr ++ [e']) = occurrences e tr.
Proof.
  intros Hne. rewrite occurrences_app, occurrences_cons.
  rewrite bool_decide_eq_false_2 by exact Hne. simpl.
  change (occurrences e []) with 0. lia.
Qed.

Lemma occurrences_snoc_eq (e : event) (tr : list event) :
  occurrences e (tr ++ [e]) = occurrences e tr + 1.
Proof.
  rewrite occurrences_app, occurrences_cons.
  rewrite bool_decide_eq_true_2 by reflexivity. reflexivity.
Qed.

(** No operation calls a user callback that is connected to the signal of
    a token that has expired (or is gone). *)
Lemma called_step (a : op) (w w' : world) (c : cn) :
  step hash a w = Some w' ->
  is_expired (cn_object c) w <> Some false ->
  occurrences (Called c) (trace w') = occurrences (Called c) (trace w).
Proof.
  intros Hstep Hc. destruct a as [o|o|o|c'|o|o|o]; simpl in Hstep.
  - eapply trace_expire_called; eassumption.
  - destruct (is_expired o w); [|discriminate]. injection Hstep as <-. reflexivity.
  - unfold observe_expiry in Hstep.
    destruct (heap w !! o) as [t|]; [|discriminate].
    simpl in Hstep. injection Hstep as <-. reflexivity.
  - destruct (lookup_slot c' w) as [s|].
    + destruct (slot_target s); [|discriminate]. injection Hstep as <-. reflexivity.
    + injection Hstep as <-. reflexivity.
  - rewrite (trace_attach o w w' Hstep). apply occurrences_snoc_ne. discriminate.
  - injection Hstep as <-. rewrite trace_detach.
    apply occurrences_snoc_ne. discriminate.
  - unfold destroy in Hstep.
    destruct (expire hash o w) as [w1|] eqn:Hexp; [|discriminate].
    injection Hstep as <-. simpl. eapply trace_expire_called; eassumption.
Qed.

Lemma not_alive_step (a : op) (o : addr) (w w' : world) :
  step hash a w = Some w' ->
  is_expired o w <> Some false -> is_expired o w' <> Some false.
Proof.
  intros Hstep Ho.
  destruct (is_expired_step a o w w' Hstep) as [H|[H|[H _]]]; congruence.
Qed.

Lemma called_run (ops : list op) (w w' : world) (c : cn) :
  run hash ops w = Some w' ->
  is_expired (cn_object c) w <> Some false ->
  occurrences (Called c) (trace w') = occurrences (Called c) (trace w).
Proof.
  revert w. induction ops as [|a ops IH]; intros w Hrun Hc; simpl in Hrun.
  - injection Hrun as <-. reflexivity.
  - destruct (step hash a w) as [w1|] eqn:Hstep; [|discriminate].
    rewrite (IH w1 Hrun) by (eapply not_alive_step; eassumption).
    eapply called_step; eassumption.
Qed.


(** *** An attachment stands until its object expires *)

Lemma registry_registry_erase (k k' : nat) (w : world) :
  attached_objects_ (registry_erase k w) !! k' =
    if decide (k = k') then None else attached_objects_ w !! k'.
Proof.
  unfold registry_erase. destruct (attached_objects_ w !! k) as [c|] eqn:Hk; simpl.
  - destruct (decide (k = k')) as [<-|Hne].
    + apply lookup_delete_eq.
    + apply lookup_delete_ne, Hne.
  - destruct (decide (k = k')) as [<-|Hne]; [exact Hk|reflexivity].
Qed.

Lemma lookup_slot_registry_erase (k : nat) (c : cn) (w : world) :
  attached_objects_ w !! k <> Some c ->
  lookup_slot c (registry_erase k w) = lookup_slot c w.
Proof.
  intros Hne. unfold registry_erase.
  destruct (attached_objects_ w !! k) as [old|]; [|reflexivity].
  rewrite lookup_slot_disconnect, decide_False by congruence. reflexivity.
Qed.

(** The registry holds the connection of an attached object under the key
    of that object only. *)
Lemma attached_by_key (x : addr) (c : cn) (w : world) (k : nat) :
  attacher_inv hash w -> attached_by hash x c w ->
  attached_objects_ w !! k = Some c -> k = hash x.
Proof.
  intros [_ Hpr] (_ & Hobj & Hs & Hexp) Hk.
  destruct (Hpr k c Hk) as (s & y & Hs' & Hy & Hkey).
  - unfold is_expired in Hexp. rewrite Hobj.
    destruct (heap w !! x); [eauto|discriminate].
  - rewrite Hs in Hs'. injection Hs' as <-. simpl in Hy. congruence.
Qed.

Lemma attached_by_alive (x : addr) (c : cn) (w : world) :
  attached_by hash x c w ->
  exists t, heap w !! x = Some t /\ expired_ t = false.
Proof.
  intros (_ & _ & _ & Hexp). unfold is_expired in Hexp.
  destruct (heap w !! x) as [t|]; [|discriminate].
  exists t. split; [reflexivity|]. simpl in Hexp. congruence.
Qed.

Lemma attached_on_other (x o : addr) (c : cn) (w : world) :
  attached_by hash x c w -> o <> x -> attached_on hash w o x = false.
Proof.
  intros (Hk & Hobj & _) Hne. unfold attached_on. rewrite Hk.
  rewrite bool_decide_eq_false_2 by congruence. reflexivity.
Qed.

Lemma attached_on_self (x : addr) (c : cn) (w : world) :
  attached_by hash x c w -> attached_on hash w x x = true.
Proof.
  intros (Hk & Hobj & Hs & _). unfold attached_on, slot_is. rewrite Hk, Hs. simpl.
  rewrite !bool_decide_eq_true_2 by auto. reflexivity.
Qed.

Lemma attached_expire (x o : addr) (c : cn) (w w' : world) :
  attacher_inv hash w -> attached_by hash x c w -> o <> x ->
  expire hash o w = Some w' ->
  attached_by hash x c w'
  /\ occurrences (Update (Attach x)) (trace w') = occurrences (Update (Attach x)) (trace w)
  /\ occurrences (Update (Detach x)) (trace w') = occurrences (Update (Detach x)) (trace w).
Proof.
  intros Hinv Hatt Hne Hexp.
  pose proof Hatt as (Hk & Hobj & Hs & Halive).
  destruct (heap w !! o) as [t|] eqn:Ht;
    [|unfold expire in Hexp; rewrite Ht in Hexp; discriminate].
  destruct (expired_ t) eqn:He.
  - rewrite (expire_done o w t Ht He) in Hexp. injection Hexp as <-. auto.
  - destruct (expire_spec o w t Hinv Ht He) as (w1 & Hw1 & _ & Htrace & _).
    assert (w1 = w') as -> by congruence. clear Hw1.
    rewrite (expire_alive o w t Ht He) in Hexp. injection Hexp as Hw'.
    assert (Hother : forall i, i ∈ seq 0 (length (signal_ t)) -> c <> Cn o i).
    { intros i _ ->. simpl in Hobj. congruence. }
    split; [|split].
    + rewrite <- Hw'. repeat split.
      * apply registry_dispatch_other;
          [apply attacher_inv_set_expired, Hinv|exact Hk|exact Hother].
      * exact Hobj.
      * rewrite lookup_slot_dispatch, lookup_slot_set_expired;
          [exact Hs|apply attacher_inv_set_expired, Hinv|exact Hother].
      * unfold is_expired. rewrite expired_dispatch. unfold set_expired. simpl.
        rewrite lookup_alter_ne by exact Hne. exact Halive.
    + rewrite Htrace, occurrences_app, occurrences_expiry_attach. lia.
    + rewrite Htrace, occurrences_app, occurrences_expiry_detach by apply Hinv.
      rewrite (attached_on_other x o c w Hatt Hne). lia.
Qed.

Lemma attached_step (x : addr) (c : cn) (a : op) (w w' : world) :
  attacher_inv hash w -> attached_by hash x c w ->
  keeps_attached hash x a ->
  step hash a w = Some w' ->
  attached_by hash x c w'
  /\ occurrences (Update (Attach x)) (trace w') = occurrences (Update (Attach x)) (trace w)
  /\ occurrences (Update (Detach x)) (trace w') = occurrences (Update (Detach x)) (trace w).
Proof.
  intros Hinv Hatt Hkeep Hstep.
  pose proof Hatt as (Hk & Hobj & Hs & Halive).
  destruct a as [o|o|o|c'|o|o|o]; simpl in Hstep, Hkeep.
  - eapply attached_expire; eassumption.
  - destruct (is_expired o w); [|discriminate]. injection Hstep as <-. auto.
  - destruct (heap w !! o) as [t|] eqn:Ht;
      [|unfold observe_expiry in Hstep; rewrite Ht in Hstep; discriminate].
    rewrite (observe_expiry_Some o _ w t Ht) in Hstep. simpl in Hstep.
    injection Hstep as <-. split; [|auto]. repeat split; simpl; auto.
    + rewrite (lookup_slot_connect _ _ _ w t _ _ Ht), decide_False; [exact Hs|].
      intros ->. rewrite (lookup_slot_fresh o w t Ht) in Hs. discriminate.
    + unfold is_expired. simpl. destruct (decide (o = x)) as [->|Hne].
      * rewrite lookup_insert_eq. unfold is_expired in Halive.
        rewrite Ht in Halive. exact Halive.
      * rewrite lookup_insert_ne by exact Hne. exact Halive.
  - destruct (lookup_slot c' w) as [s|] eqn:Hs'.
    + destruct (slot_target s) eqn:Htarget; [|discriminate].
      injection Hstep as <-. split; [|auto]. repeat split; simpl; auto.
      * rewrite lookup_slot_disconnect, decide_False; [exact Hs|].
        intros ->. rewrite Hs in Hs'. injection Hs' as <-. discriminate.
      * unfold is_expired. rewrite expired_disconnect. exact Halive.
    + injection Hstep as <-. auto.
  - assert (o <> x) by congruence.
    destruct (heap w !! o) as [t|] eqn:Ht.
    + destruct (attach_spec o w t Hinv Ht)
        as (w1 & Hw1 & _ & Htrace & _ & _ & Hexp & Hreg & Hslot).
      assert (w1 = w') as -> by congruence.
      split; [|split].
      * repeat split.
        -- rewrite Hreg by exact Hkeep. exact Hk.
        -- exact Hobj.
        -- rewrite Hslot; [exact Hs| |].
           ++ intros ->. simpl in Hobj. congruence.
           ++ intros Hk'. apply Hkeep.
              eapply attached_by_key; eassumption.
        -- rewrite Hexp. exact Halive.
      * rewrite Htrace. apply occurrences_snoc_ne. congruence.
      * rewrite Htrace. apply occurrences_snoc_ne. discriminate.
    + unfold attach, observe_expiry in Hstep. simpl in Hstep.
      rewrite Ht in Hstep. discriminate.
  - assert (o <> x) by congruence.
    injection Hstep as <-. split; [|split].
    + repeat split.
      * unfold detach. simpl.
        rewrite registry_registry_erase, decide_False by exact Hkeep. exact Hk.
      * exact Hobj.
      * unfold detach.
        change (lookup_slot c (log ?e ?w)) with (lookup_slot c w).
        rewrite lookup_slot_registry_erase; [exact Hs|].
        intros Hk'. apply Hkeep. eapply attached_by_key; eassumption.
      * unfold detach, is_expired. simpl. rewrite expired_registry_erase.
        exact Halive.
    + rewrite trace_detach. apply occurrences_snoc_ne. discriminate.
    + rewrite trace_detach. apply occurrences_snoc_ne. congruence.
  - unfold destroy in Hstep.
    destruct (expire hash o w) as [w1|] eqn:Hexp; [|discriminate].
    injection Hstep as <-.
    destruct (attached_expire x o c w w1 Hinv Hatt Hkeep Hexp)
      as ((Hk1 & _ & Hs1 & Halive1) & Hcnt).
    split; [|exact Hcnt]. repeat split; simpl.
    + exact Hk1.
    + exact Hobj.
    + rewrite lookup_slot_delete, decide_False by congruence. exact Hs1.
    + rewrite is_expired_delete, decide_False by congruence. exact Halive1.
Qed.

Lemma attached_run (x : addr) (c : cn) (ops : list op) (w w' : world) :
  attacher_inv hash w -> attached_by hash x c w ->
  Forall (keeps_attached hash x) ops ->
  run hash ops w = Some w' ->
  attacher_inv hash w'
  /\ attached_by hash x c w'
  /\ occurrences (Update (Attach x)) (trace w') = occurrences (Update (Attach x)) (trace w)
  /\ occurrences (Update (Detach x)) (trace w') = occurrences (Update (Detach x)) (trace w).
Proof.
  revert w. induction ops as [|a ops IH]; intros w Hinv Hatt Hkeep Hrun;
    simpl in Hrun.
  - injection Hrun as <-. auto.
  - destruct (step hash a w) as [w1|] eqn:Hstep; [|discriminate].
    apply Forall_cons in Hkeep as [Ha Hkeep].
    destruct (attached_step x c a w w1 Hinv Hatt Ha Hstep) as (Hatt1 & Hc1 & Hc2).
    destruct (IH w1 (attacher_inv_step a w w1 Hinv Hstep) Hatt1 Hkeep Hrun)
      as (Hinv' & Hatt' & Hc1' & Hc2').
    split; [exact Hinv'|]. split; [exact Hatt'|]. split; congruence.
Qed.


(** ** Expiry tokens and the attacher: the main results *)

Lemma run_expire_again (o : addr) (w : world) (n : nat) :
  expire hash o w = Some w -> run hash (replicate n (Expire o)) w = Some w.
Proof.
  intros Hexp. induction n as [|n IH]; simpl; [reflexivity|].
  rewrite Hexp. exact IH.
Qed.

Lemma called_by_expiry (o : addr) (w w1 : world) :
  trace w1 = trace w ++ expiry_events o w ->
  forall c,
    occurrences (Called c) (trace w1) =
      occurrences (Called c) (trace w) + (if observes w o c then 1 else 0).
Proof.
  intros Htrace c.
  rewrite Htrace, occurrences_app, occurrences_expiry_called. reflexivity.
Qed.

Lemma detached_by_expiry (o : addr) (w w1 : world) :
  attacher_inv hash w ->
  trace w1 = trace w ++ expiry_events o w ->
  forall x,
    occurrences (Update (Detach x)) (trace w1) =
      occurrences (Update (Detach x)) (trace w)
      + (if attached_on hash w o x then 1 else 0).
Proof.
  intros [Htr _] Htrace x.
  rewrite Htrace, occurrences_app, occurrences_expiry_detach by exact Htr.
  reflexivity.
Qed.

(** C2.  In a state that satisfies the attacher's invariant (every
    reachable state does): when a token that has not expired is destroyed,
    the destructor runs [expire()]: that call makes the transition (a token still there
    after it would answer [is_expired() = true]) and fires the expiry
    signal, so the trace grows by the events of one firing: every user
    callback connected to the signal is called exactly once (no other
    connection is called), and every closure the attacher has connected
    there calls the owner's hook once with [Detach].  After the destructor
    the object is gone. *)
Theorem destroy_fires_expiry (o : addr) (w : world) (t : expiry_token) :
  attacher_inv hash w ->
  heap w !! o = Some t -> expired_ t = false ->
  exists w1 w2,
    expire hash o w = Some w1
    /\ is_expired o w1 = Some true
    /\ destroy hash o w = Some w2
    /\ heap w2 !! o = None
    /\ trace w2 = trace w ++ expiry_events o w
    /\ (forall c,
          occurrences (Called c) (trace w2) =
            occurrences (Called c) (trace w) + (if observes w o c then 1 else 0))
    /\ (forall x,
          occurrences (Update (Detach x)) (trace w2) =
            occurrences (Update (Detach x)) (trace w)
            + (if attached_on hash w o x then 1 else 0)).
Proof.
  intros Hinv Ht He.
  destruct (expire_spec o w t Hinv Ht He) as (w1 & Hw1 & _ & Htrace & Hexp & _).
  exists w1, (World (delete o (heap w1)) (attached_objects_ w1) (trace w1)).
  split; [exact Hw1|]. split; [exact Hexp|]. split.
  { unfold destroy. rewrite Hw1. reflexivity. }
  split; [apply lookup_delete_eq|]. split; [exact Htrace|]. split.
  - apply called_by_expiry. exact Htrace.
  - apply detached_by_expiry; [exact Hinv|exact Htrace].
Qed.

(** C3.  In a state that satisfies the attacher's invariant (every
    reachable state does): on a token that has not expired, the first
    [expire()] sets the flag and fires the signal: the trace grows by the events of one
    firing, so every user callback connected to the signal is called
    exactly once and no other connection is called (and every closure of
    the attacher connected there calls the hook once).  Every further
    [expire()] returns the state unchanged, trace included; so [n + 1]
    calls in a row leave exactly the state the first one produced. *)
Theorem expire_fires_once (o : addr) (w : world) (t : expiry_token) (n : nat) :
  attacher_inv hash w ->
  heap w !! o = Some t -> expired_ t = false ->
  exists w1,
    expire hash o w = Some w1
    /\ is_expired o w1 = Some true
    /\ trace w1 = trace w ++ expiry_events o w
    /\ (forall c,
          occurrences (Called c) (trace w1) =
            occurrences (Called c) (trace w) + (if observes w o c then 1 else 0))
    /\ (forall x,
          occurrences (Update (Detach x)) (trace w1) =
            occurrences (Update (Detach x)) (trace w)
            + (if attached_on hash w o x then 1 else 0))
    /\ expire hash o w1 = Some w1
    /\ run hash (replicate (S n) (Expire o)) w = Some w1.
Proof.
  intros Hinv Ht He.
  destruct (expire_spec o w t Hinv Ht He) as (w1 & Hw1 & _ & Htrace & Hexp & Hagain).
  exists w1. repeat split; try assumption.
  - apply called_by_expiry. exact Htrace.
  - apply detached_by_expiry; [exact Hinv|exact Htrace].
  - simpl. rewrite Hw1. apply run_expire_again, Hagain.
Qed.

(** C4.  Registering a user callback on a token that has already expired
    succeeds and connects the callback, but calls nothing (the trace is
    the same after the registration), and whatever operations follow, on
    this token or on anything else, the callback is never called: the
    number of its calls in the trace stays what it was. *)
Theorem late_observer_never_called (o : addr) (w : world) (t : expiry_token) :
  heap w !! o = Some t -> expired_ t = true ->
  exists w1 c,
    observe_expiry o user_slot w = Some (w1, c)
    /\ cn_object c = o
    /\ lookup_slot c w1 = Some (Slot user_slot true)
    /\ trace w1 = trace w
    /\ (forall ops w2,
          run hash ops w1 = Some w2 ->
          occurrences (Called c) (trace w2) = occurrences (Called c) (trace w1)).
Proof.
  intros Ht He. eexists _, _. split; [apply (observe_expiry_Some o _ w t Ht)|].
  split; [reflexivity|]. split; [|split; [reflexivity|]].
  - rewrite (lookup_slot_connect _ _ _ w t _ _ Ht), decide_True by reflexivity.
    reflexivity.
  - intros ops w2 Hrun. apply (called_run ops _ w2 _ Hrun).
    unfold is_expired. simpl. rewrite lookup_insert_eq. simpl. congruence.
Qed.

Lemma is_expired_run (o : addr) (pre ops : list op) (w w' : world) :
  is_expired o w = Some true \/ (is_expired o w = None /\ Destroy o ∈ pre) ->
  run hash ops w = Some w' ->
  is_expired o w' = Some true
  \/ (is_expired o w' = None /\ Destroy o ∈ pre ++ ops).
Proof.
  revert pre w. induction ops as [|a ops IH]; intros pre w Hw Hrun; simpl in Hrun.
  - injection Hrun as <-. rewrite app_nil_r. exact Hw.
  - destruct (step hash a w) as [w1|] eqn:Hstep; [|discriminate].
    replace (pre ++ a :: ops) with ((pre ++ [a]) ++ ops)
      by (rewrite <- app_assoc; reflexivity).
    apply (IH (pre ++ [a]) w1); [|exact Hrun].
    destruct (is_expired_step a o w w1 Hstep) as [Hsame|[Htrue|[Hnone ->]]].
    + rewrite Hsame. destruct Hw as [Hw|[Hw Hin]]; [auto|].
      right. split; [exact Hw|]. apply elem_of_app. auto.
    + auto.
    + right. split; [exact Hnone|]. apply elem_of_app. right. left.
Qed.

(** C10.  Once [is_expired()] of a token is true it stays true through
    every sequence of operations ([expire], [observe_expiry], the firing of
    signals, disconnects, attaching and detaching): nothing sets the flag
    back.  The only way for the answer to stop being true is that the
    sequence destroys the object, after which the token is no longer
    there to be asked. *)
Theorem is_expired_monotone (o : addr) (ops : list op) (w w' : world) :
  is_expired o w = Some true ->
  run hash ops w = Some w' ->
  is_expired o w' = Some true
  \/ (is_expired o w' = None /\ Destroy o ∈ ops).
Proof.
  intros Hw Hrun. apply (is_expired_run o [] ops w w'); auto.
Qed.

(** C8.  In a state that satisfies the attacher's invariant (every
    reachable state does): attaching a live, unexpired object [x] calls
    the owner's hook once with [Attach x] and registers [x].  Whatever operations follow
    that leave the attachment of [x] alone, the hook is called with
    neither [Attach x] nor [Detach x] meanwhile; and when [x] then
    expires, the hook is called exactly once with [Detach x] and the
    registry has no entry under the key of [x] afterwards. *)
Theorem attacher_round_trip (x : addr) (w : world) (t : expiry_token)
    (ops : list op) :
  attacher_inv hash w ->
  heap w !! x = Some t -> expired_ t = false ->
  Forall (keeps_attached hash x) ops ->
  exists w1,
    attach hash x w = Some w1
    /\ trace w1 = trace w ++ [Update (Attach x)]
    /\ is_Some (attached_objects_ w1 !! hash x)
    /\ (forall w2,
          run hash ops w1 = Some w2 ->
          exists w3,
            expire hash x w2 = Some w3
            /\ occurrences (Update (Attach x)) (trace w3) =
                 occurrences (Update (Attach x)) (trace w) + 1
            /\ occurrences (Update (Detach x)) (trace w2) =
                 occurrences (Update (Detach x)) (trace w)
            /\ occurrences (Update (Detach x)) (trace w3) =
                 occurrences (Update (Detach x)) (trace w) + 1
            /\ attached_objects_ w3 !! hash x = None).
Proof.
  intros Hinv Ht He Hkeep.
  destruct (attach_spec x w t Hinv Ht)
    as (w1 & Hw1 & Hinv1 & Htrace1 & Hreg1 & Hslot1 & Hexp1 & _).
  exists w1. split; [exact Hw1|]. split; [exact Htrace1|].
  split; [rewrite Hreg1; eauto|].
  intros w2 Hrun.
  set (c := Cn x (length (signal_ t))) in *.
  assert (Hatt1 : attached_by hash x c w1).
  { repeat split; try assumption. rewrite Hexp1. unfold is_expired.
    rewrite Ht. simpl. congruence. }
  destruct (attached_run x c ops w1 w2 Hinv1 Hatt1 Hkeep Hrun)
    as (Hinv2 & Hatt2 & Hca2 & Hcd2).
  destruct (attached_by_alive x c w2 Hatt2) as (t2 & Ht2 & He2).
  destruct (expire_spec x w2 t2 Hinv2 Ht2 He2) as (w3 & Hw3 & _ & Htrace3 & _).
  exists w3. split; [exact Hw3|].
  assert (Hd1 : occurrences (Update (Detach x)) (trace w1)
                = occurrences (Update (Detach x)) (trace w)).
  { rewrite Htrace1. apply occurrences_snoc_ne. discriminate. }
  assert (Ha1 : occurrences (Update (Attach x)) (trace w1)
                = occurrences (Update (Attach x)) (trace w) + 1).
  { rewrite Htrace1. apply occurrences_snoc_eq. }
  split; [|split; [|split]].
  - rewrite Htrace3, occurrences_app, occurrences_expiry_attach. lia.
  - lia.
  - rewrite Htrace3, occurrences_app, occurrences_expiry_detach by apply Hinv2.
    rewrite (attached_on_self x c w2 Hatt2). lia.
  - rewrite (expire_alive x w2 t2 Ht2 He2) in Hw3. injection Hw3 as <-.
    destruct Hatt2 as (_ & _ & Hs2 & _).
    apply (registry_dispatch_released x _ _ x (cn_slot c)
             (Slot (on_expired x) true)).
    + apply attacher_inv_set_expired, Hinv2.
    + apply (lookup_slot_lt x _ w2 t2 _ Ht2 Hs2).
    + rewrite lookup_slot_set_expired. exact Hs2.
    + reflexivity.
    + reflexivity.
Qed.


(** An explicit [detach] of an attached object calls the hook with
    [Detach], removes the registry entry and, by destroying the stored
    [scoped_cn], disconnects the closure; so when the object expires
    later the hook is not called a second time. *)
Theorem explicit_detach_releases (x : addr) (c : cn) (w : world) :
  attacher_inv hash w -> attached_by hash x c w ->
  trace (detach hash x w) = trace w ++ [Update (Detach x)]
  /\ attached_objects_ (detach hash x w) !! hash x = None
  /\ lookup_slot c (detach hash x w) = Some (Slot (on_expired x) false)
  /\ exists w2,
       expire hash x (detach hash x w) = Some w2
       /\ occurrences (Update (Detach x)) (trace w2) =
            occurrences (Update (Detach x)) (trace w) + 1.
Proof.
  intros Hinv Hatt. pose proof Hatt as (Hk & Hobj & Hs & Halive).
  assert (Hreg : attached_objects_ (detach hash x w) !! hash x = None).
  { unfold detach. simpl.
    rewrite registry_registry_erase, decide_True by reflexivity. reflexivity. }
  split; [apply trace_detach|]. split; [exact Hreg|]. split.
  - unfold detach, registry_erase. rewrite Hk.
    change (lookup_slot c (log ?e ?w)) with (lookup_slot c w).
    rewrite lookup_slot_disconnect, decide_True by reflexivity.
    change (lookup_slot c (World (heap w) ?r (trace w))) with (lookup_slot c w).
    rewrite Hs. reflexivity.
  - assert (Halive' : is_expired x (detach hash x w) = Some false).
    { unfold detach, is_expired. simpl. rewrite expired_registry_erase.
      exact Halive. }
    unfold is_expired in Halive'.
    destruct (heap (detach hash x w) !! x) as [t1|] eqn:Ht1; [|discriminate].
    assert (He1 : expired_ t1 = false) by (simpl in Halive'; congruence).
    destruct (expire_spec x _ t1 (attacher_inv_detach x w Hinv) Ht1 He1)
      as (w2 & Hw2 & _ & Htrace & _).
    exists w2. split; [exact Hw2|].
    rewrite Htrace, occurrences_app, occurrences_expiry_detach
      by apply (attacher_inv_detach x w Hinv).
    unfold attached_on. rewrite Hreg, trace_detach, occurrences_snoc_eq. lia.
Qed.

End EXPIRY_FACTS.

(** * Part III: the model at work on sample states *)

Lemma sample_world_inv : attacher_inv sample_hash sample_world.
Proof.
  apply attacher_inv_init; [reflexivity|].
  intros [o i] s. unfold lookup_slot, sample_world. simpl.
  rewrite !lookup_insert, lookup_singleton.
  repeat case_decide; try discriminate;
    destruct i as [|[|i]]; simpl; intros [= <-]; reflexivity.
Qed.

(** The scenario of the specification for properties: a property holding
    0 and one observer; [set(1)] calls it, a second [set(1)] does not,
    [set(1, true, true)] calls it again, and after [disconnect()] a
    [set(2)] stores 2 without calling it. *)
Example property_scenario :
  let '(p0, c) := ReadOnlyProperty.observe (Property.make 0%Z) in
  let st1 := Property.set 1%Z true false (p0, []) in
  let st2 := Property.set 1%Z true false st1 in
  let st3 := Property.set 1%Z true true st2 in
  let st4 := Property.set 2%Z true false
               (ReadOnlyProperty.disconnect_observer c (fst st3), snd st3) in
  snd st1 = [(c, 1%Z)]
  /\ st2 = st1
  /\ snd st3 = [(c, 1%Z); (c, 1%Z)]
  /\ ReadOnlyProperty.get (fst st4) = 2%Z
  /\ snd st4 = snd st3.
Proof. vm_compute. repeat split. Qed.

(** [set(v, false)] with a new value stores it and calls nobody. *)
Example property_silent_set :
  Property.set 5%Z false false (sample_property, []) =
    (ReadOnlyProperty.Make 5%Z (ReadOnlyProperty.signal_ sample_property), []).
Proof. reflexivity. Qed.

(** A getter never caches: it reads the captured state at every call. *)
Example getter_scenario :
  let g : Getter.t Z Z := Getter.make (Some (fun counter => counter)) in
  Getter.get g 5%Z = Getter.Returns 5%Z
  /\ Getter.get g 9%Z = Getter.Returns 9%Z
  /\ Getter.get (Getter.default (T:=Z)) 9%Z = Getter.BadFunctionCall.
Proof. repeat split. Qed.

(** The scenario of the specification for expirables: two observers are
    registered, [expire()] calls both once in the order of registration,
    and dropping the object afterwards calls nothing. *)
Example expirable_scenario :
  trace <$> run sample_hash [ObserveExpiry 2; ObserveExpiry 2; Expire 2] sample_world
    = Some [Called (Cn 2 0); Called (Cn 2 1)]
  /\ trace <$> run sample_hash
                 [ObserveExpiry 2; ObserveExpiry 2; Expire 2; Expire 2; Destroy 2]
                 sample_world
     = Some [Called (Cn 2 0); Called (Cn 2 1)].
Proof. split; vm_compute; reflexivity. Qed.

(** Attach, then expiry: one [Attach], one [Detach], nothing left in the
    registry.  An explicit [detach] in between releases the subscription,
    so that the expiry does not call the hook a second time. *)
Example attacher_scenario :
  (fun w => (trace w, attached_objects_ w !! sample_hash 2))
     <$> run sample_hash [AttachObject 2; ObserveExpiry 2; Expire 2] sample_world
    = Some ([Update (Attach 2); Update (Detach 2); Called (Cn 2 1)], None)
  /\ trace <$> run sample_hash [AttachObject 2; DetachObject 2; Expire 2] sample_world
     = Some [Update (Attach 2); Update (Detach 2)].
Proof. split; vm_compute; reflexivity. Qed.

(** Why [keeps_attached] asks for distinct keys: when two objects collide
    in the registry, attaching the second one releases the subscription
    of the first, whose expiry then goes unnoticed. *)
Example attacher_key_collision :
  trace <$> run (fun _ => 0) [AttachObject 1; AttachObject 2; Expire 1] sample_world
    = Some [Update (Attach 1); Update (Attach 2); Called (Cn 1 0)].
Proof. vm_compute. reflexivity. Qed.

(** ** The theorems applied to the sample states *)

(** The sample one-shot property holds 0: a first [set(0)] is suppressed,
    latches, and the two writes after it are ignored. *)
Lemma one_shot_suppressed_first_write_witness :
  OneShotProperty.flag_ sample_one_shot = false
  /\ op_eq 0%Z (OneShotProperty.get sample_one_shot) = true
  /\ snd (OneShotProperty.set 0%Z true false (sample_one_shot, [])) = []
  /\ OneShotProperty.base
       (fst (OneShotProperty.set 0%Z true false (sample_one_shot, [])))
     = OneShotProperty.base sample_one_shot
  /\ OneShotProperty.flag_
       (fst (OneShotProperty.set 0%Z true false (sample_one_shot, []))) = true
  /\ OneShotProperty.do_writes
       [OneShotProperty.BySet 5%Z true true; OneShotProperty.ByAssign 7%Z]
       (OneShotProperty.set 0%Z true false (sample_one_shot, []))
     = OneShotProperty.set 0%Z true false (sample_one_shot, []).
Proof.
  split; [reflexivity|]. split; [reflexivity|].
  exact (one_shot_suppressed_first_write sample_one_shot [] 0%Z
           [OneShotProperty.BySet 5%Z true true; OneShotProperty.ByAssign 7%Z]
           eq_refl eq_refl).
Defined.

(** On the sample one-shot property, [set(4)] then [set(9, true, true)]. *)
Lemma one_shot_second_write_ignored_witness :
  OneShotProperty.flag_ sample_one_shot = false
  /\ op_eq 4%Z (OneShotProperty.get sample_one_shot) = false
  /\ OneShotProperty.get
       (fst (OneShotProperty.set 4%Z true false (sample_one_shot, []))) = 4%Z
  /\ OneShotProperty.get
       (fst (OneShotProperty.set 9%Z true true
               (OneShotProperty.set 4%Z true false (sample_one_shot, [])))) = 4%Z
  /\ snd (OneShotProperty.set 9%Z true true
            (OneShotProperty.set 4%Z true false (sample_one_shot, [])))
     = snd (OneShotProperty.set 4%Z true false (sample_one_shot, []))
  /\ OneShotProperty.set 9%Z true true
       (OneShotProperty.set 4%Z true false (sample_one_shot, []))
     = OneShotProperty.set 4%Z true false (sample_one_shot, []).
Proof.
  split; [reflexivity|]. split; [reflexivity|].
  exact (one_shot_second_write_ignored sample_one_shot [] 4%Z 9%Z
           true false true true eq_refl eq_refl).
Defined.

(** On the latched sample property, a forced [set(9)] and an assignment. *)
Lemma one_shot_latched_frame_witness :
  OneShotProperty.flag_ sample_latched = true
  /\ OneShotProperty.set 9%Z true true (sample_latched, []) = (sample_latched, [])
  /\ OneShotProperty.assign 9%Z (sample_latched, []) = (sample_latched, []).
Proof.
  split; [reflexivity|].
  exact (one_shot_latched_frame sample_latched [] 9%Z true true eq_refl).
Defined.

(** Destroying object 1 of the sample state, which has not expired. *)
Lemma destroy_fires_expiry_witness :
  heap sample_world !! 1 =
    Some (ExpiryToken [Slot user_slot true; Slot user_slot false] false)
  /\ exists w1 w2,
       expire sample_hash 1 sample_world = Some w1
       /\ is_expired 1 w1 = Some true
       /\ destroy sample_hash 1 sample_world = Some w2
       /\ heap w2 !! 1 = None
       /\ trace w2 = trace sample_world ++ expiry_events 1 sample_world
       /\ (forall c,
             occurrences (Called c) (trace w2) =
               occurrences (Called c) (trace sample_world)
               + (if observes sample_world 1 c then 1 else 0))
       /\ (forall x,
             occurrences (Update (Detach x)) (trace w2) =
               occurrences (Update (Detach x)) (trace sample_world)
               + (if attached_on sample_hash sample_world 1 x then 1 else 0)).
Proof.
  split; [vm_compute; reflexivity|].
  apply (destroy_fires_expiry sample_hash 1 sample_world
           (ExpiryToken [Slot user_slot true; Slot user_slot false] false)).
  - exact sample_world_inv.
  - vm_compute. reflexivity.
  - reflexivity.
Defined.

(** Three [expire()] calls on object 1 of the sample state. *)
Lemma expire_fires_once_witness :
  heap sample_world !! 1 =
    Some (ExpiryToken [Slot user_slot true; Slot user_slot false] false)
  /\ exists w1,
       expire sample_hash 1 sample_world = Some w1
       /\ is_expired 1 w1 = Some true
       /\ trace w1 = trace sample_world ++ expiry_events 1 sample_world
       /\ (forall c,
             occurrences (Called c) (trace w1) =
               occurrences (Called c) (trace sample_world)
               + (if observes sample_world 1 c then 1 else 0))
       /\ (forall x,
             occurrences (Update (Detach x)) (trace w1) =
               occurrences (Update (Detach x)) (trace sample_world)
               + (if attached_on sample_hash sample_world 1 x then 1 else 0))
       /\ expire sample_hash 1 w1 = Some w1
       /\ run sample_hash (replicate 3 (Expire 1)) sample_world = Some w1.
Proof.
  split; [vm_compute; reflexivity|].
  apply (expire_fires_once sample_hash 1 sample_world
           (ExpiryToken [Slot user_slot true; Slot user_slot false] false) 2).
  - exact sample_world_inv.
  - vm_compute. reflexivity.
  - reflexivity.
Defined.

(** Registering on object 3 of the sample state, which has expired. *)
Lemma late_observer_never_called_witness :
  heap sample_world !! 3 = Some (ExpiryToken [Slot user_slot true] true)
  /\ exists w1 c,
       observe_expiry 3 user_slot sample_world = Some (w1, c)
       /\ cn_object c = 3
       /\ lookup_slot c w1 = Some (Slot user_slot true)
       /\ trace w1 = trace sample_world
       /\ (forall ops w2,
             run sample_hash ops w1 = Some w2 ->
             occurrences (Called c) (trace w2) = occurrences (Called c) (trace w1)).
Proof.
  split; [vm_compute; reflexivity|].
  apply (late_observer_never_called sample_hash 3 sample_world
           (ExpiryToken [Slot user_slot true] true)).
  - vm_compute. reflexivity.
  - reflexivity.
Defined.

(** Object 3 of the sample state stays expired through a run of
    operations. *)
Lemma is_expired_monotone_witness :
  is_expired 3 sample_world = Some true
  /\ exists w',
       run sample_hash
           [Expire 3; ObserveExpiry 3; AttachObject 3; Expire 3;
            Disconnect (Cn 3 0); Expire 1]
           sample_world = Some w'
       /\ (is_expired 3 w' = Some true
           \/ (is_expired 3 w' = None
               /\ Destroy 3 ∈ [Expire 3; ObserveExpiry 3; AttachObject 3; Expire 3;
                               Disconnect (Cn 3 0); Expire 1])).
Proof.
  split; [vm_compute; reflexivity|].
  eexists. split; [vm_compute; reflexivity|].
  eapply (is_expired_monotone sample_hash 3 _ sample_world).
  - vm_compute. reflexivity.
  - vm_compute. reflexivity.
Defined.

(** Object 2 of the sample state is attached, other things happen, and it
    expires. *)
Lemma attacher_round_trip_witness :
  heap sample_world !! 2 = Some (ExpiryToken [] false)
  /\ Forall (keeps_attached sample_hash 2)
       [ObserveExpiry 2; AttachObject 1; Disconnect (Cn 1 0); Expire 1]
  /\ exists w1,
       attach sample_hash 2 sample_world = Some w1
       /\ trace w1 = trace sample_world ++ [Update (Attach 2)]
       /\ is_Some (attached_objects_ w1 !! sample_hash 2)
       /\ (forall w2,
             run sample_hash
                 [ObserveExpiry 2; AttachObject 1; Disconnect (Cn 1 0); Expire 1]
                 w1 = Some w2 ->
             exists w3,
               expire sample_hash 2 w2 = Some w3
               /\ occurrences (Update (Attach 2)) (trace w3) =
                    occurrences (Update (Attach 2)) (trace sample_world) + 1
               /\ occurrences (Update (Detach 2)) (trace w2) =
                    occurrences (Update (Detach 2)) (trace sample_world)
               /\ occurrences (Update (Detach 2)) (trace w3) =
                    occurrences (Update (Detach 2)) (trace sample_world) + 1
               /\ attached_objects_ w3 !! sample_hash 2 = None).
Proof.
  assert (Hkeep : Forall (keeps_attached sample_hash 2)
            [ObserveExpiry 2; AttachObject 1; Disconnect (Cn 1 0); Expire 1]).
  { repeat constructor; unfold sample_hash; simpl; discriminate. }
  split; [vm_compute; reflexivity|]. split; [exact Hkeep|].
  apply (attacher_round_trip sample_hash 2 sample_world (ExpiryToken [] false)).
  - exact sample_world_inv.
  - vm_compute. reflexivity.
  - reflexivity.
  - exact Hkeep.
Defined.

(** These operations do run; the trace they leave has one [Attach 2] and
    one [Detach 2]. *)
Example attacher_round_trip_run :
  trace <$> run sample_hash
              [AttachObject 2; ObserveExpiry 2; AttachObject 1;
               Disconnect (Cn 1 0); Expire 1; Expire 2]
              sample_world
    = Some [Update (Attach 2); Update (Attach 1); Update (Detach 1);
            Update (Detach 2); Called (Cn 2 1)].
Proof. vm_compute. reflexivity. Qed.

(** The invariant after a run on the sample state that attaches object 1
    twice and destroys it. *)
Lemma attacher_inv_run_witness :
  attacher_inv sample_hash sample_world
  /\ exists w',
       run sample_hash [AttachObject 1; ObserveExpiry 1; AttachObject 1; Destroy 1]
           sample_world = Some w'
       /\ attacher_inv sample_hash w'.
Proof.
  split; [exact sample_world_inv|].
  eexists. split; [vm_compute; reflexivity|].
  apply (attacher_inv_run sample_hash
           [AttachObject 1; ObserveExpiry 1; AttachObject 1; Destroy 1]
           sample_world).
  - exact sample_world_inv.
  - vm_compute. reflexivity.
Defined.

(** Object 2 of the sample state once it has been attached. *)
Lemma sample_attached :
  exists w1,
    attach sample_hash 2 sample_world = Some w1
    /\ attacher_inv sample_hash w1
    /\ attached_by sample_hash 2 (Cn 2 0) w1.
Proof.
  destruct (attach_spec sample_hash 2 sample_world (ExpiryToken [] false)
              sample_world_inv)
    as (w1 & Hw1 & Hinv1 & _ & Hreg & Hslot & Hexp & _);
    [vm_compute; reflexivity|].
  exists w1. split; [exact Hw1|]. split; [exact Hinv1|].
  repeat split; try assumption. rewrite Hexp. vm_compute. reflexivity.
Qed.

(** Object 2 is attached, detached by hand, and then expires. *)
Lemma explicit_detach_releases_witness :
  exists w1,
    attach sample_hash 2 sample_world = Some w1
    /\ trace (detach sample_hash 2 w1) = trace w1 ++ [Update (Detach 2)]
    /\ attached_objects_ (detach sample_hash 2 w1) !! sample_hash 2 = None
    /\ lookup_slot (Cn 2 0) (detach sample_hash 2 w1)
         = Some (Slot (on_expired 2) false)
    /\ exists w2,
         expire sample_hash 2 (detach sample_hash 2 w1) = Some w2
         /\ occurrences (Update (Detach 2)) (trace w2) =
              occurrences (Update (Detach 2)) (trace w1) + 1.
Proof.
  destruct sample_attached as (w1 & Hw1 & Hinv1 & Hatt1).
  exists w1. split; [exact Hw1|].
  exact (explicit_detach_releases sample_hash 2 (Cn 2 0) w1 Hinv1 Hatt1).
Defined.

(** Attaching an object that is attached already replaces the
    subscription: the hook sees [Attach] twice and, at expiry, [Detach]
    once. *)
Example attach_twice :
  trace <$> run sample_hash [AttachObject 2; AttachObject 2; Expire 2] sample_world
    = Some [Update (Attach 2); Update (Attach 2); Update (Detach 2)].
Proof. vm_compute. reflexivity. Qed.

(** C7, as it is worded, does not hold.  The getter class declares no
    boolean conversion; the one the library defines belongs to the
    observer facade, and the facade holds a copy of the getter's function.
    Take a default-constructed getter, make its facade, then bind a
    function to the getter with [set]: [get()] on the getter now returns
    a value, but the facade still converts to false (and its own [get()]
    still fails), so this conversion does not report that a function has
    been bound to the getter. *)
Lemma getter_bool_is_a_snapshot :
  Getter.get (Getter.set (Some (fun counter : Z => counter)) Getter.default) 5%Z
    = Getter.Returns 5%Z
  /\ Getter.observer_bool (Getter.observer (Getter.default (T:=Z) (E:=Z))) = false
  /\ Getter.observer_get (Getter.observer (Getter.default (T:=Z) (E:=Z))) 5%Z
     = Getter.BadFunctionCall
  /\ Getter.observer_bool
       (Getter.observer
          (Getter.set (Some (fun counter : Z => counter)) Getter.default))
     = true.
Proof. repeat split. Qed.

(** * Part IV: further properties *)

(** ** Connections of a signal *)

Section SIGNAL_MORE.
Context {F : Type}.

Lemma filter_keep_all {A : Type} (P : A -> Prop) `{forall x, Decision (P x)}
    (l : list A) :
  (forall x, x ∈ l -> P x) -> filter P l = l.
Proof.
  induction l as [|x l IH]; intros Hall; [reflexivity|].
  rewrite filter_cons_True by (apply Hall; left).
  f_equal. apply IH. intros y Hy. apply Hall. right. exact Hy.
Qed.

Lemma filter_same_on {A : Type} (P Q : A -> Prop)
    `{forall x, Decision (P x)} `{forall x, Decision (Q x)} (l : list A) :
  (forall x, x ∈ l -> (P x <-> Q x)) -> filter P l = filter Q l.
Proof.
  induction l as [|x l IH]; intros Hall; [reflexivity|].
  rewrite !filter_cons.
  rewrite IH by (intros y Hy; apply Hall; right; exact Hy).
  destruct (decide (P x)) as [HP|HP], (decide (Q x)) as [HQ|HQ];
    try reflexivity; exfalso; apply (Hall x (list_elem_of_here _ _)) in HP || idtac.
  - contradiction.
  - apply HP. apply (Hall x); [left|exact HQ].
Qed.

Lemma connected_ids_lt (sg : signal F) (i : nat) :
  i ∈ connected_ids sg -> i < length sg.
Proof.
  unfold connected_ids. rewrite list_elem_of_filter, elem_of_seq. lia.
Qed.

Lemma connected_ids_snoc (sg : signal F) (f : F) (b : bool) :
  connected_ids (sg ++ [Slot f b]) =
    connected_ids sg ++ (if b then [length sg] else []).
Proof.
  unfold connected_ids. rewrite length_app. simpl.
  rewrite Nat.add_1_r, seq_S, filter_app. simpl. f_equal.
  - apply filter_same_on. intros i Hi. apply elem_of_seq in Hi.
    unfold is_connected. rewrite lookup_app_l by lia. reflexivity.
  - rewrite filter_cons, filter_nil. unfold is_connected.
    rewrite lookup_app_r by lia. rewrite Nat.sub_diag. simpl.
    destruct b.
    + rewrite decide_True by reflexivity. reflexivity.
    + rewrite decide_False by discriminate. reflexivity.
Qed.

Lemma is_connected_disconnect (c i : nat) (sg : signal F) :
  is_connected (disconnect c sg) i =
    if decide (i = c) then false else is_connected sg i.
Proof.
  unfold is_connected, disconnect. destruct (decide (i = c)) as [->|Hne].
  - rewrite list_lookup_alter_eq. destruct (sg !! c); reflexivity.
  - rewrite list_lookup_alter_ne by congruence. reflexivity.
Qed.

Lemma length_disconnect (c : nat) (sg : signal F) :
  length (disconnect c sg) = length sg.
Proof. unfold disconnect. apply length_alter. Qed.

Lemma connected_ids_disconnect (c : nat) (sg : signal F) :
  connected_ids (disconnect c sg) = filter (fun i => i <> c) (connected_ids sg).
Proof.
  unfold connected_ids. rewrite length_disconnect.
  rewrite list_filter_filter. apply filter_same_on. intros i _.
  rewrite is_connected_disconnect. destruct (decide (i = c)); split.
  - discriminate.
  - intros [Hne _]. contradiction.
  - intros Hc. split; assumption.
  - intros [_ Hc]. exact Hc.
Qed.

End SIGNAL_MORE.

(** ** Properties and their observers *)

Section PROPERTY_MORE.
Context {T : Type} `{EqOp T}.

Lemma deliveries_snoc (sg : signal unit) (b : bool) (v : T) :
  ReadOnlyProperty.deliveries (sg ++ [Slot tt b]) v =
    ReadOnlyProperty.deliveries sg v ++ (if b then [(length sg, v)] else []).
Proof.
  unfold ReadOnlyProperty.deliveries. rewrite connected_ids_snoc, fmap_app.
  destruct b; reflexivity.
Qed.

Lemma deliveries_disconnect (c : nat) (sg : signal unit) (v : T) :
  ReadOnlyProperty.deliveries (disconnect c sg) v =
    filter (fun e => fst e <> c) (ReadOnlyProperty.deliveries sg v).
Proof.
  unfold ReadOnlyProperty.deliveries. rewrite connected_ids_disconnect.
  induction (connected_ids sg) as [|i l IH]; [reflexivity|].
  rewrite fmap_cons. destruct (decide (i <> c)) as [Hne|Heq].
  - rewrite (filter_cons_True (fun j => j <> c)) by exact Hne.
    rewrite (filter_cons_True (fun e : nat * T => fst e <> c)) by exact Hne.
    rewrite fmap_cons, IH. reflexivity.
  - rewrite (filter_cons_False (fun j => j <> c)) by exact Heq.
    rewrite (filter_cons_False (fun e : nat * T => fst e <> c)) by exact Heq.
    exact IH.
Qed.

(** What a [set] adds to the trace. *)
Lemma set_trace (p : ReadOnlyProperty.t T) (tr : ReadOnlyProperty.calls T)
    (v : T) (notify_ force : bool) :
  snd (Property.set v notify_ force (p, tr)) =
    tr ++ (if op_eq v (ReadOnlyProperty.get p) && negb force then []
           else if notify_
                then ReadOnlyProperty.deliveries (ReadOnlyProperty.signal_ p) v
                else []).
Proof.
  unfold Property.set, PropertySetter.set, ReadOnlyProperty.set,
    ReadOnlyProperty.get. simpl.
  destruct (op_eq v (ReadOnlyProperty.value_ p) && negb force).
  - simpl. rewrite app_nil_r. reflexivity.
  - destruct notify_.
    + rewrite notify_delivers. reflexivity.
    + simpl. rewrite app_nil_r. reflexivity.
Qed.

(** An observer registered with [observe] gets the next connection after
    the ones that exist, keeps the value as it is, and from then on every
    [set] that notifies calls it once, after all the observers registered
    before it; a [set] that is suppressed or silent still calls nobody. *)
Theorem observe_is_called_last (p : ReadOnlyProperty.t T)
    (tr : ReadOnlyProperty.calls T) (v : T) (notify_ force : bool) :
  let p' := fst (ReadOnlyProperty.observe p) in
  let c := snd (ReadOnlyProperty.observe p) in
  c = length (ReadOnlyProperty.signal_ p)
  /\ ReadOnlyProperty.get p' = ReadOnlyProperty.get p
  /\ snd (Property.set v notify_ force (p', tr)) =
       snd (Property.set v notify_ force (p, tr))
       ++ (if op_eq v (ReadOnlyProperty.get p) && negb force then []
           else if notify_ then [(c, v)] else []).
Proof.
  simpl. split; [reflexivity|]. split; [reflexivity|].
  rewrite !set_trace. unfold ReadOnlyProperty.get. simpl.
  destruct (op_eq v (ReadOnlyProperty.value_ p) && negb force).
  - rewrite !app_nil_r. reflexivity.
  - destruct notify_.
    + rewrite deliveries_snoc, app_assoc. reflexivity.
    + rewrite !app_nil_r. reflexivity.
Qed.

(** Disconnecting an observer takes exactly its calls out of every later
    notification: the other observers are called as before, in the same
    order.  The value is untouched, and disconnecting a second time
    changes nothing. *)
Theorem disconnect_silences_one (c : nat) (p : ReadOnlyProperty.t T)
    (tr : ReadOnlyProperty.calls T) :
  let p' := ReadOnlyProperty.disconnect_observer c p in
  ReadOnlyProperty.get p' = ReadOnlyProperty.get p
  /\ ReadOnlyProperty.notify (p', tr) =
       (p', tr ++ filter (fun e => fst e <> c)
                    (drop (length tr) (snd (ReadOnlyProperty.notify (p, tr)))))
  /\ ReadOnlyProperty.disconnect_observer c p' = p'.
Proof.
  simpl. split; [reflexivity|]. split.
  - rewrite !notify_delivers. simpl. rewrite drop_app_length.
    rewrite deliveries_disconnect. reflexivity.
  - unfold ReadOnlyProperty.disconnect_observer. simpl. f_equal.
    unfold disconnect. rewrite list_alter_alter_eq.
    apply list_alter_ext; [|reflexivity]. intros s _. reflexivity.
Qed.

Lemma one_shot_write_latches (a : OneShotProperty.write T)
    (st : OneShotProperty.state T) :
  OneShotProperty.flag_ (fst (OneShotProperty.do_write a st)) = true.
Proof.
  destruct a; simpl; unfold OneShotProperty.set, OneShotProperty.assign;
    destruct (OneShotProperty.flag_ (fst st)) eqn:Hf; simpl; auto.
Qed.

(** Of any sequence of writes to a one-shot property, by [set] or by
    assignment, only the first one can have an effect: the state after the
    whole sequence is the state after its first write, and the latch is
    set. *)
Theorem one_shot_first_write_decides (a : OneShotProperty.write T)
    (l : list (OneShotProperty.write T)) (st : OneShotProperty.state T) :
  OneShotProperty.do_writes (a :: l) st = OneShotProperty.do_write a st
  /\ OneShotProperty.flag_ (fst (OneShotProperty.do_writes (a :: l) st)) = true.
Proof.
  assert (Heq : OneShotProperty.do_writes (a :: l) st
                = OneShotProperty.do_write a st).
  { change (OneShotProperty.do_writes (a :: l) st)
      with (OneShotProperty.do_writes l (OneShotProperty.do_write a st)).
    apply one_shot_writes_latched, one_shot_write_latches. }
  rewrite Heq. split; [reflexivity|apply one_shot_write_latches].
Qed.

End PROPERTY_MORE.

(** ** Value connections *)

Section VALUE_CN_MORE.
Context {T : Type}.

Lemma release_connected_ids (conn : option nat) (p : ReadOnlyProperty.t T) :
  connected_ids (ReadOnlyProperty.signal_ (ValueCn.release conn p)) =
    match conn with
    | Some c => filter (fun i => i <> c) (connected_ids (ReadOnlyProperty.signal_ p))
    | None => connected_ids (ReadOnlyProperty.signal_ p)
    end.
Proof.
  destruct conn as [c|]; simpl; [|reflexivity]. apply connected_ids_disconnect.
Qed.

Lemma release_length (conn : option nat) (p : ReadOnlyProperty.t T) :
  length (ReadOnlyProperty.signal_ (ValueCn.release conn p)) =
    length (ReadOnlyProperty.signal_ p).
Proof. destruct conn as [c|]; simpl; [apply length_disconnect|reflexivity]. Qed.

Lemma release_value (conn : option nat) (p : ReadOnlyProperty.t T) :
  ReadOnlyProperty.value_ (ValueCn.release conn p) = ReadOnlyProperty.value_ p.
Proof. destruct conn; reflexivity. Qed.

(** Taking out the connection of the [value_cn] leaves the connections of
    the original property. *)
Lemma tracks_filter (p0 : ReadOnlyProperty.t T) (b : bool) (s : ValueCn.state T)
    (c : nat) :
  ValueCn.tracks p0 b s ->
  ValueCn.connection_ (fst s) = Some c ->
  filter (fun i => i <> c)
         (connected_ids (ReadOnlyProperty.signal_ (fst (snd s)))) =
    connected_ids (ReadOnlyProperty.signal_ p0).
Proof.
  intros (_ & _ & _ & Hrange & Hids & _) Hc. rewrite Hids, filter_app, Hc.
  destruct (Hrange c Hc) as [Hlo _].
  rewrite filter_keep_all.
  - destruct b; simpl; [|apply app_nil_r].
    rewrite filter_cons_False by (intros Hne; apply Hne; reflexivity).
    apply app_nil_r.
  - intros i Hi. apply connected_ids_lt in Hi. lia.
Qed.

Lemma tracks_connect (p0 : ReadOnlyProperty.t T) (b : bool) (s : ValueCn.state T) :
  ValueCn.tracks p0 b s ->
  exists s',
    ValueCn.connect s = PropertyObserver.Returns s'
    /\ snd (snd s') = snd (snd s)
    /\ ValueCn.tracks p0 true s'.
Proof.
  intros Htr. pose proof Htr as (Hobs & Hval & Hlen & Hrange & Hids & Hsome).
  destruct s as [vc [p tr]]. simpl in *.
  unfold ValueCn.connect. simpl. rewrite Hobs. simpl.
  eexists. split; [reflexivity|]. split; [reflexivity|].
  unfold ValueCn.tracks. simpl. split; [reflexivity|].
  split; [rewrite release_value; exact Hval|].
  rewrite release_length. simpl. rewrite length_app. simpl.
  split; [lia|]. split; [|split].
  - intros c [= <-]. lia.
  - rewrite release_connected_ids. simpl.
    rewrite connected_ids_snoc.
    destruct (ValueCn.connection_ vc) as [old|] eqn:Hold.
    + rewrite filter_app.
      pose proof (tracks_filter p0 b (vc, (p, tr)) old Htr Hold) as Hf.
      simpl in Hf. rewrite Hf.
      rewrite filter_cons_True; [reflexivity|].
      destruct (Hrange old eq_refl). lia.
    + destruct b; [destruct (Hsome eq_refl); discriminate|].
      rewrite Hids, app_nil_r. reflexivity.
  - intros _. eauto.
Qed.

Lemma tracks_disconnect (p0 : ReadOnlyProperty.t T) (b : bool)
    (s : ValueCn.state T) :
  ValueCn.tracks p0 b s ->
  snd (snd (ValueCn.disconnect s)) = snd (snd s)
  /\ ValueCn.tracks p0 false (ValueCn.disconnect s).
Proof.
  intros Htr. pose proof Htr as (Hobs & Hval & Hlen & Hrange & Hids & Hsome).
  destruct s as [vc [p tr]]. simpl in *. split; [reflexivity|].
  unfold ValueCn.tracks, ValueCn.disconnect. simpl.
  split; [exact Hobs|]. split; [rewrite release_value; exact Hval|].
  rewrite release_length. split; [exact Hlen|]. split; [exact Hrange|].
  split; [|discriminate].
  rewrite release_connected_ids, app_nil_r.
  destruct (ValueCn.connection_ vc) as [c|] eqn:Hc.
  - exact (tracks_filter p0 b (vc, (p, tr)) c Htr Hc).
  - destruct b; [destruct (Hsome eq_refl); discriminate|].
    rewrite Hids, app_nil_r. reflexivity.
Qed.

Lemma tracks_toggles (p0 : ReadOnlyProperty.t T) (l : list ValueCn.toggle)
    (b : bool) (s : ValueCn.state T) :
  ValueCn.tracks p0 b s ->
  exists s',
    ValueCn.do_toggles l s = PropertyObserver.Returns s'
    /\ snd (snd s') = snd (snd s)
    /\ ValueCn.tracks p0
         (fold_left (fun _ a => match a with
                                | ValueCn.Connect => true
                                | ValueCn.Disconnect => false
                                end) l b) s'.
Proof.
  revert b s. induction l as [|a l IH]; intros b s Htr; simpl.
  - exists s. auto.
  - destruct a; simpl.
    + destruct (tracks_connect p0 b s Htr) as (s1 & Hs1 & Htr1 & Hinv1).
      rewrite Hs1. destruct (IH true s1 Hinv1) as (s' & Hs' & Htr' & Hinv').
      exists s'. split; [exact Hs'|]. split; [congruence|exact Hinv'].
    + destruct (tracks_disconnect p0 b s Htr) as (Htr1 & Hinv1).
      destruct (IH false _ Hinv1) as (s' & Hs' & Htr' & Hinv').
      exists s'. split; [exact Hs'|]. split; [congruence|exact Hinv'].
Qed.

Lemma tracks_make (p0 : ReadOnlyProperty.t T) (tr : ReadOnlyProperty.calls T)
    (start_disconnected : bool) :
  exists s0,
    ValueCn.make (PropertyObserver.observer p0) start_disconnected (p0, tr)
      = PropertyObserver.Returns s0
    /\ snd (snd s0) = tr
    /\ ValueCn.tracks p0 (negb start_disconnected) s0.
Proof.
  assert (Hinit : ValueCn.tracks p0 false
            (ValueCn.Make (PropertyObserver.observer p0) None, (p0, tr))).
  { unfold ValueCn.tracks. simpl. rewrite app_nil_r.
    repeat split; try discriminate; auto. }
  unfold ValueCn.make. destruct start_disconnected; simpl.
  - eexists. split; [reflexivity|]. split; [reflexivity|exact Hinit].
  - destruct (tracks_connect p0 false _ Hinit) as (s0 & Hs0 & Htr0 & Hinv0).
    exists s0. split; [exact Hs0|]. split; [exact Htr0|exact Hinv0].
Qed.

(** A [value_cn] made over the facade of a property and then switched on
    and off any number of times always succeeds, calls nobody, leaves the
    value and the other observers alone, and holds at most one live
    subscription: the connections a notification reaches are the ones the
    property had, followed by the connection of the [value_cn] exactly
    when the last thing asked for was a subscription.  In particular
    [connect()] called twice does not subscribe the callback twice. *)
Theorem value_cn_single_subscription (p0 : ReadOnlyProperty.t T)
    (tr : ReadOnlyProperty.calls T) (start_disconnected : bool)
    (l : list ValueCn.toggle) :
  exists s0 vc p,
    ValueCn.make (PropertyObserver.observer p0) start_disconnected (p0, tr)
      = PropertyObserver.Returns s0
    /\ ValueCn.do_toggles l s0 = PropertyObserver.Returns (vc, (p, tr))
    /\ ValueCn.get vc p = Some (ReadOnlyProperty.get p0)
    /\ connected_ids (ReadOnlyProperty.signal_ p) =
         connected_ids (ReadOnlyProperty.signal_ p0)
         ++ (if ValueCn.subscribed start_disconnected l
             then option_list (ValueCn.connection_ vc) else [])
    /\ (ValueCn.subscribed start_disconnected l = true ->
         exists c, ValueCn.connection_ vc = Some c
                   /\ length (ReadOnlyProperty.signal_ p0) <= c).
Proof.
  destruct (tracks_make p0 tr start_disconnected) as (s0 & Hs0 & Htr0 & Hinv0).
  destruct (tracks_toggles p0 l _ s0 Hinv0) as ([vc [p tr']] & Hs & Htr' & Hinv).
  simpl in Htr'. assert (tr' = tr) as -> by congruence.
  destruct Hinv as (Hobs & Hval & _ & Hrange & Hids & Hsome). simpl in *.
  exists s0, vc, p. split; [exact Hs0|]. split; [exact Hs|]. split; [|split].
  - unfold ValueCn.get, PropertyObserver.get, ReadOnlyProperty.get.
    rewrite Hobs. simpl. congruence.
  - exact Hids.
  - intros Hsub. destruct (Hsome Hsub) as [c Hc]. exists c.
    split; [exact Hc|]. apply (Hrange c Hc).
Qed.

(** A [value_cn] made connected follows its property: after a [set], its
    [get()] gives the value the property now holds (the facade reads
    through a pointer, it keeps no copy), and its callback has been called
    once, after the observers the property had, exactly when the [set] took
    effect and notified. *)
Theorem value_cn_follows_property `{EqOp T} (p0 : ReadOnlyProperty.t T)
    (tr : ReadOnlyProperty.calls T) (v : T) (notify_ force : bool) :
  exists vc p,
    ValueCn.make (PropertyObserver.observer p0) false (p0, tr)
      = PropertyObserver.Returns (vc, (p, tr))
    /\ ValueCn.connection_ vc = Some (length (ReadOnlyProperty.signal_ p0))
    /\ ValueCn.get vc (fst (Property.set v notify_ force (p, tr)))
       = Some (ReadOnlyProperty.get (fst (Property.set v notify_ force (p, tr))))
    /\ ReadOnlyProperty.get (fst (Property.set v notify_ force (p, tr)))
       = ReadOnlyProperty.get (fst (Property.set v notify_ force (p0, tr)))
    /\ snd (Property.set v notify_ force (p, tr)) =
         snd (Property.set v notify_ force (p0, tr))
         ++ (if op_eq v (ReadOnlyProperty.get p0) && negb force then []
             else if notify_
                  then [(length (ReadOnlyProperty.signal_ p0), v)] else []).
Proof.
  exists (ValueCn.Make (PropertyObserver.observer p0)
            (Some (length (ReadOnlyProperty.signal_ p0)))),
         (fst (ReadOnlyProperty.observe p0)).
  split; [reflexivity|]. split; [reflexivity|]. split; [reflexivity|].
  split.
  - unfold Property.set, PropertySetter.set, ReadOnlyProperty.set,
      ReadOnlyProperty.get. simpl.
    destruct (op_eq v (ReadOnlyProperty.value_ p0) && negb force); [reflexivity|].
    destruct notify_; [rewrite !notify_delivers|]; reflexivity.
  - rewrite !set_trace. unfold ReadOnlyProperty.get. simpl.
    destruct (op_eq v (ReadOnlyProperty.value_ p0) && negb force).
    + rewrite !app_nil_r. reflexivity.
    + destruct notify_.
      * rewrite deliveries_snoc, app_assoc. reflexivity.
      * rewrite !app_nil_r. reflexivity.
Qed.

(** Over a default-constructed facade a [value_cn] can only be made
    disconnected: the constructor with [start_disconnected = false] ends
    in [std::bad_function_call].  Made disconnected, it stays inert:
    [disconnect()] does nothing, and the first [connect()] ends in
    [std::bad_function_call]; the property is never touched. *)
Theorem value_cn_empty_observer (st : ReadOnlyProperty.state T)
    (l : list ValueCn.toggle) :
  ValueCn.make PropertyObserver.default false st
    = PropertyObserver.BadFunctionCall
  /\ ValueCn.make PropertyObserver.default true st
     = PropertyObserver.Returns (ValueCn.Make PropertyObserver.default None, st)
  /\ ValueCn.do_toggles l (ValueCn.Make PropertyObserver.default None, st) =
       (if bool_decide (ValueCn.Connect ∈ l) then PropertyObserver.BadFunctionCall
        else PropertyObserver.Returns
               (ValueCn.Make PropertyObserver.default None, st))
  /\ ValueCn.get (ValueCn.Make PropertyObserver.default None) (fst st) = None.
Proof.
  split; [reflexivity|]. split; [reflexivity|]. split; [|reflexivity].
  induction l as [|a l IH]; [reflexivity|].
  destruct a.
  - rewrite bool_decide_eq_true_2 by left. reflexivity.
  - rewrite (bool_decide_ext (ValueCn.Connect ∈ ValueCn.Disconnect :: l)
               (ValueCn.Connect ∈ l)).
    + rewrite <- IH. destruct st as [p tr]. reflexivity.
    + rewrite elem_of_cons. split; [|auto].
      intros [Heq|Hin]; [discriminate|exact Hin].
Qed.

End VALUE_CN_MORE.

(** ** Getters and their observers *)

Section GETTER_MORE.
Context {T E : Type}.

Lemma getter_call_slot (i : nat) (g : Getter.t T E) (tr : list nat) :
  call_slot (fun i (st : Getter.t T E * list nat) => Getter.signal_ (fst st) !! i)
            (fun i (_ : unit) (st : Getter.t T E * list nat) =>
               (fst st, snd st ++ [i]))
            (g, tr) i =
    (g, tr ++ (if is_connected (Getter.signal_ g) i then [i] else [])).
Proof.
  unfold call_slot, is_connected. simpl.
  destruct (Getter.signal_ g !! i) as [s|]; [destruct (slot_connected s)|];
    simpl; rewrite ?app_nil_r; reflexivity.
Qed.

Lemma getter_invoke_ids (ids : list nat) (g : Getter.t T E) (tr : list nat) :
  invoke_ids (fun i (st : Getter.t T E * list nat) => Getter.signal_ (fst st) !! i)
             (fun i (_ : unit) (st : Getter.t T E * list nat) =>
                (fst st, snd st ++ [i]))
             ids (g, tr) =
    (g, tr ++ filter (fun i => is_connected (Getter.signal_ g) i = true) ids).
Proof.
  revert tr. induction ids as [|i ids IH]; intros tr; simpl.
  - rewrite app_nil_r. reflexivity.
  - unfold invoke_ids in *. simpl. rewrite getter_call_slot, IH.
    rewrite filter_cons.
    destruct (is_connected (Getter.signal_ g) i) eqn:Hc.
    + rewrite decide_True by reflexivity. rewrite <- app_assoc. reflexivity.
    + rewrite decide_False by discriminate. rewrite app_nil_r. reflexivity.
Qed.

Lemma getter_notify_delivers (g : Getter.t T E) (tr : list nat) :
  Getter.notify (g, tr) = (g, tr ++ connected_ids (Getter.signal_ g)).
Proof. unfold Getter.notify. simpl. apply getter_invoke_ids. Qed.

(** The observers of a getter are told only by [notify()], which calls
    each connected observer once, in the order of registration and without
    touching the getter.  A callback subscribed through the facade
    [g.observer()] is subscribed to the getter itself: it gets the next
    connection, the function of the getter is unchanged, and the next
    [notify()] calls it once, after all the others.  Subscribing through a
    default-constructed facade ends in [std::bad_function_call]. *)
Theorem getter_facade_subscription (g : Getter.t T E) (tr : list nat) (e : E) :
  Getter.notify (g, tr) = (g, tr ++ connected_ids (Getter.signal_ g))
  /\ Getter.observer_observe (Getter.Observer None false) g = None
  /\ exists g',
       Getter.observer_observe (Getter.observer g) g
         = Some (g', length (Getter.signal_ g))
       /\ Getter.get g' e = Getter.get g e
       /\ Getter.notify (g', tr) =
            (g', tr ++ connected_ids (Getter.signal_ g)
                    ++ [length (Getter.signal_ g)]).
Proof.
  split; [apply getter_notify_delivers|]. split; [reflexivity|].
  exists (Getter.Make (Getter.getter_ g) (Getter.signal_ g ++ [Slot tt true])).
  split; [reflexivity|]. split; [reflexivity|].
  rewrite getter_notify_delivers. simpl.
  rewrite (connected_ids_snoc (Getter.signal_ g) tt true). reflexivity.
Qed.

End GETTER_MORE.

(** ** More on the attacher and on expiry *)

Section EXPIRY_MORE.
Variable hash : addr -> nat.

Lemma detach_registry (x : addr) (w : world) :
  attached_objects_ (detach hash x w) !! hash x = None.
Proof.
  unfold detach. simpl.
  rewrite registry_registry_erase, decide_True by reflexivity. reflexivity.
Qed.

(** The explicit [detach] calls the owner's hook every time it is called,
    whether the object is attached or not: [n] calls in a row give [n]
    calls of the hook with [Detach], although only the first one can find
    an entry to remove.  After at least one call the registry has no
    entry under the key of the object. *)
Theorem detach_calls_hook_every_time (x : addr) (n : nat) (w : world) :
  exists w',
    run hash (replicate n (DetachObject x)) w = Some w'
    /\ occurrences (Update (Detach x)) (trace w') =
         occurrences (Update (Detach x)) (trace w) + n
    /\ (0 < n -> attached_objects_ w' !! hash x = None).
Proof.
  revert w. induction n as [|n IH]; intros w.
  - exists w. split; [reflexivity|]. split; [lia|lia].
  - destruct (IH (detach hash x w)) as (w' & Hrun & Hcount & Hreg).
    exists w'. split; [exact Hrun|]. split.
    + rewrite Hcount, trace_detach, occurrences_snoc_eq. lia.
    + intros _. destruct n as [|n].
      * simpl in Hrun. injection Hrun as <-. apply detach_registry.
      * apply Hreg. lia.
Qed.

Lemma alive_of_is_expired (x : addr) (w : world) (b : bool) :
  is_expired x w = Some b ->
  exists t, heap w !! x = Some t /\ expired_ t = b.
Proof.
  unfold is_expired. destruct (heap w !! x) as [t|]; [|discriminate].
  intros [= <-]. eauto.
Qed.

(** Attaching an object that has already expired calls the hook with
    [Attach] and stores a subscription that can never fire: every later
    [expire()] changes nothing, and when the object is destroyed the hook
    is not called and the entry stays in the registry. *)
Theorem attach_expired_is_never_detached (x : addr) (w : world)
    (t : expiry_token) (n : nat) :
  attacher_inv hash w ->
  heap w !! x = Some t -> expired_ t = true ->
  exists w1 w2,
    attach hash x w = Some w1
    /\ trace w1 = trace w ++ [Update (Attach x)]
    /\ attached_objects_ w1 !! hash x = Some (Cn x (length (signal_ t)))
    /\ run hash (replicate n (Expire x)) w1 = Some w1
    /\ destroy hash x w1 = Some w2
    /\ trace w2 = trace w1
    /\ heap w2 !! x = None
    /\ attached_objects_ w2 !! hash x = Some (Cn x (length (signal_ t))).
Proof.
  intros Hinv Ht He.
  destruct (attach_spec hash x w t Hinv Ht)
    as (w1 & Hw1 & _ & Htrace & Hreg & _ & Hexp & _).
  assert (Hx : is_expired x w1 = Some true).
  { rewrite Hexp. unfold is_expired. rewrite Ht. simpl. congruence. }
  destruct (alive_of_is_expired x w1 true Hx) as (t1 & Ht1 & He1).
  pose proof (expire_done hash x w1 t1 Ht1 He1) as Hagain.
  exists w1, (World (delete x (heap w1)) (attached_objects_ w1) (trace w1)).
  split; [exact Hw1|]. split; [exact Htrace|]. split; [exact Hreg|].
  split; [apply run_expire_again, Hagain|]. split.
  { unfold destroy. rewrite Hagain. reflexivity. }
  split; [reflexivity|]. split; [apply lookup_delete_eq|exact Hreg].
Qed.

(** Attaching under a key that the registry already holds releases the
    subscription stored there. *)
Lemma attach_releases_previous (z : addr) (w : world) (t : expiry_token)
    (c : cn) (s : slot slot_fn) :
  attacher_inv hash w ->
  heap w !! z = Some t ->
  attached_objects_ w !! hash z = Some c ->
  lookup_slot c w = Some s ->
  exists w1,
    attach hash z w = Some w1
    /\ attacher_inv hash w1
    /\ trace w1 = trace w ++ [Update (Attach z)]
    /\ lookup_slot c w1 = Some (unplug s)
    /\ attached_objects_ w1 !! hash z = Some (Cn z (length (signal_ t)))
    /\ lookup_slot (Cn z (length (signal_ t))) w1 = Some (Slot (on_expired z) true)
    /\ (forall o, is_expired o w1 = is_expired o w).
Proof.
  intros Hinv Ht Hk Hs.
  destruct (attach_spec hash z w t Hinv Ht)
    as (w1 & Hw1 & Hinv1 & Htrace & Hreg & Hnew & Hexp & _).
  exists w1. split; [exact Hw1|]. split; [exact Hinv1|]. split; [exact Htrace|].
  split; [|auto].
  unfold attach in Hw1.
  rewrite (observe_expiry_Some z _ (log (Update (Attach z)) w) t Ht) in Hw1.
  injection Hw1 as <-.
  rewrite lookup_slot_registry_assign. simpl. rewrite Hk.
  rewrite decide_True by reflexivity.
  rewrite (lookup_slot_connect c z (on_expired z) w t _ _ Ht).
  rewrite decide_False; [rewrite Hs; reflexivity|].
  intros ->. rewrite (lookup_slot_fresh z w t Ht) in Hs. discriminate.
Qed.

(** Attaching an object that is attached already replaces its
    subscription: the hook is called with [Attach] again, the closure
    connected by the earlier [attach] is disconnected, and the object is
    attached through a new connection, so that its expiry will call the
    hook with [Detach] once and not twice. *)
Theorem reattach_replaces_subscription (x : addr) (c : cn) (w : world) :
  attacher_inv hash w -> attached_by hash x c w ->
  exists w1 c',
    attach hash x w = Some w1
    /\ trace w1 = trace w ++ [Update (Attach x)]
    /\ lookup_slot c w1 = Some (Slot (on_expired x) false)
    /\ c' <> c
    /\ attached_by hash x c' w1
    /\ attached_on hash w1 x x = true
    /\ attacher_inv hash w1.
Proof.
  intros Hinv Hatt. pose proof Hatt as (Hk & Hobj & Hs & Halive).
  destruct (alive_of_is_expired x w false Halive) as (t & Ht & He).
  destruct (attach_releases_previous x w t c _ Hinv Ht Hk Hs)
    as (w1 & Hw1 & Hinv1 & Htrace & Hold & Hreg & Hnew & Hexp).
  assert (Hatt1 : attached_by hash x (Cn x (length (signal_ t))) w1).
  { repeat split; try assumption. rewrite Hexp. exact Halive. }
  exists w1, (Cn x (length (signal_ t))).
  split; [exact Hw1|]. split; [exact Htrace|]. split; [exact Hold|].
  split; [|split; [exact Hatt1|split; [|exact Hinv1]]].
  - intros Heq. rewrite Heq in Hnew. rewrite Hold in Hnew. discriminate.
  - apply (attached_on_self hash x _ w1 Hatt1).
Qed.

(** Two objects with the same key: attaching the second one while the
    first is attached disconnects the subscription of the first.  When the
    first object expires afterwards the hook is not called with [Detach]
    for it, and the registry keeps the entry of the second object. *)
Theorem key_collision_silences_first (x y : addr) (c : cn) (w : world)
    (ty : expiry_token) :
  attacher_inv hash w -> attached_by hash x c w ->
  y <> x -> hash y = hash x ->
  heap w !! y = Some ty ->
  exists w1 w2,
    attach hash y w = Some w1
    /\ lookup_slot c w1 = Some (Slot (on_expired x) false)
    /\ expire hash x w1 = Some w2
    /\ occurrences (Update (Detach x)) (trace w2) =
         occurrences (Update (Detach x)) (trace w)
    /\ attached_objects_ w2 !! hash x = Some (Cn y (length (signal_ ty))).
Proof.
  intros Hinv Hatt Hne Hkey Hy. pose proof Hatt as (Hk & Hobj & Hs & Halive).
  rewrite <- Hkey in Hk.
  destruct (attach_releases_previous y w ty c _ Hinv Hy Hk Hs)
    as (w1 & Hw1 & Hinv1 & Htrace & Hold & Hreg & _ & Hexp).
  rewrite Hkey in Hreg.
  assert (Halive1 : is_expired x w1 = Some false) by (rewrite Hexp; exact Halive).
  destruct (alive_of_is_expired x w1 false Halive1) as (t1 & Ht1 & He1).
  destruct (expire_spec hash x w1 t1 Hinv1 Ht1 He1)
    as (w2 & Hw2 & _ & Htrace2 & _).
  exists w1, w2. split; [exact Hw1|]. split; [exact Hold|].
  split; [exact Hw2|]. split.
  - rewrite Htrace2, occurrences_app.
    rewrite (occurrences_expiry_detach hash x w1 x) by apply Hinv1.
    unfold attached_on. rewrite Hreg. simpl.
    rewrite bool_decide_eq_false_2 by exact Hne. simpl.
    rewrite Htrace, occurrences_snoc_ne by discriminate. lia.
  - rewrite (expire_alive hash x w1 t1 Ht1 He1) in Hw2. injection Hw2 as <-.
    apply registry_dispatch_other.
    + apply attacher_inv_set_expired, Hinv1.
    + exact Hreg.
    + intros i _ [= Heq _]. contradiction.
Qed.

(** Destroying an attached object that has not expired detaches it: the
    destructor's [expire()] runs the closure, so the hook is called once
    with [Detach], the registry entry is removed, and the object is
    gone. *)
Theorem destroy_attached_detaches (x : addr) (c : cn) (w : world) :
  attacher_inv hash w -> attached_by hash x c w ->
  exists w2,
    destroy hash x w = Some w2
    /\ occurrences (Update (Detach x)) (trace w2) =
         occurrences (Update (Detach x)) (trace w) + 1
    /\ attached_objects_ w2 !! hash x = None
    /\ heap w2 !! x = None
    /\ attacher_inv hash w2.
Proof.
  intros Hinv Hatt. pose proof Hatt as (Hk & Hobj & Hs & Halive).
  destruct (alive_of_is_expired x w false Halive) as (t & Ht & He).
  destruct (expire_spec hash x w t Hinv Ht He) as (w1 & Hw1 & Hinv1 & Htrace & _).
  exists (World (delete x (heap w1)) (attached_objects_ w1) (trace w1)).
  split; [unfold destroy; rewrite Hw1; reflexivity|]. simpl.
  split; [|split; [|split; [apply lookup_delete_eq|]]].
  - rewrite Htrace, occurrences_app.
    rewrite (occurrences_expiry_detach hash x w x) by apply Hinv.
    rewrite (attached_on_self hash x c w Hatt). reflexivity.
  - rewrite (expire_alive hash x w t Ht He) in Hw1. injection Hw1 as <-.
    apply (registry_dispatch_released hash x _ _ x (cn_slot c)
             (Slot (on_expired x) true)).
    + apply attacher_inv_set_expired, Hinv.
    + destruct c as [o i]. simpl in *. subst o.
      apply (lookup_slot_lt x i w t _ Ht Hs).
    + rewrite lookup_slot_set_expired. destruct c as [o i]. simpl in *.
      subst o. exact Hs.
    + reflexivity.
    + reflexivity.
  - apply attacher_inv_delete, Hinv1.
Qed.

(** The expiry of one object leaves the others alone: the slots of every
    other token stay as they are, no callback connected elsewhere is
    called, no other token changes its flag, and the registry keeps every
    subscription that lives on another token. *)
Theorem expire_is_local (o : addr) (w w' : world) :
  attacher_inv hash w ->
  expire hash o w = Some w' ->
  (forall c, cn_object c <> o ->
     lookup_slot c w' = lookup_slot c w
     /\ occurrences (Called c) (trace w') = occurrences (Called c) (trace w))
  /\ (forall o', o' <> o -> is_expired o' w' = is_expired o' w)
  /\ (forall k c, attached_objects_ w !! k = Some c -> cn_object c <> o ->
        attached_objects_ w' !! k = Some c).
Proof.
  intros Hinv Hexp.
  assert (Hflag : forall o', o' <> o -> is_expired o' w' = is_expired o' w).
  { intros o' Hne. rewrite (is_expired_expire hash o' o w w' Hexp).
    rewrite decide_False by exact Hne. reflexivity. }
  destruct (heap w !! o) as [t|] eqn:Ht;
    [|unfold expire in Hexp; rewrite Ht in Hexp; discriminate].
  destruct (expired_ t) eqn:He.
  - rewrite (expire_done hash o w t Ht He) in Hexp. injection Hexp as <-. auto.
  - rewrite (expire_alive hash o w t Ht He) in Hexp. injection Hexp as <-.
    assert (Hinv' : attacher_inv hash (set_expired o w))
      by apply attacher_inv_set_expired, Hinv.
    split; [|split; [exact Hflag|]].
    + intros c Hc. split.
      * rewrite lookup_slot_dispatch, lookup_slot_set_expired;
          [reflexivity|exact Hinv'|].
        intros i _ ->. apply Hc. reflexivity.
      * rewrite occurrences_called_dispatch_other by exact Hc. reflexivity.
    + intros k c Hk Hc. apply registry_dispatch_other; [exact Hinv'|exact Hk|].
      intros i _ ->. apply Hc. reflexivity.
Qed.

(** *** [store] *)

Lemma store_destroy_snoc (s : store) (c : cn) (w : world) :
  store_destroy (store_add c s) w = cn_disconnect c (store_destroy s w).
Proof. unfold store_destroy, store_add. apply fold_left_app. Qed.

Lemma disconnect_keeps_off (c c' : cn) (w : world) (f : slot_fn) :
  slot_is w c f = false -> slot_is (cn_disconnect c' w) c f = false.
Proof.
  unfold slot_is. rewrite lookup_slot_disconnect.
  destruct (decide (c = c')) as [->|_]; [|auto].
  destruct (lookup_slot c' w); reflexivity.
Qed.

Lemma disconnect_turns_off (c : cn) (w : world) (f : slot_fn) :
  slot_is (cn_disconnect c w) c f = false.
Proof.
  unfold slot_is. rewrite lookup_slot_disconnect, decide_True by reflexivity.
  destruct (lookup_slot c w); reflexivity.
Qed.

(** When a store ends, every connection that was added to it is
    disconnected and nothing else happens: nobody is called, the other
    slots, the flags and the registry stay as they are, and the invariant
    of the attacher is kept.  A callback whose connection was in the store
    is not called by an expiry that comes afterwards. *)
Theorem store_destroy_unsubscribes (s : store) (w : world) :
  attacher_inv hash w ->
  attacher_inv hash (store_destroy s w)
  /\ trace (store_destroy s w) = trace w
  /\ attached_objects_ (store_destroy s w) = attached_objects_ w
  /\ (forall o, is_expired o (store_destroy s w) = is_expired o w)
  /\ (forall c, c ∉ s -> lookup_slot c (store_destroy s w) = lookup_slot c w)
  /\ (forall c f, c ∈ s -> slot_is (store_destroy s w) c f = false)
  /\ (forall c o w2, c ∈ s ->
        expire hash o (store_destroy s w) = Some w2 ->
        occurrences (Called c) (trace w2) = occurrences (Called c) (trace w)).
Proof.
  intros Hinv.
  assert (Hmain : attacher_inv hash (store_destroy s w)
    /\ trace (store_destroy s w) = trace w
    /\ attached_objects_ (store_destroy s w) = attached_objects_ w
    /\ (forall o, is_expired o (store_destroy s w) = is_expired o w)
    /\ (forall c, c ∉ s -> lookup_slot c (store_destroy s w) = lookup_slot c w)
    /\ (forall c f, c ∈ s -> slot_is (store_destroy s w) c f = false)).
  { induction s as [|c0 s IH] using rev_ind.
    - unfold store_destroy. simpl. split; [exact Hinv|].
      split; [reflexivity|]. split; [reflexivity|]. split; [reflexivity|].
      split; [reflexivity|]. intros c f Hc. by apply elem_of_nil in Hc.
    - change (s ++ [c0]) with (store_add c0 s). rewrite store_destroy_snoc.
      destruct IH as (Hi & Ht & Hr & He & Hout & Hin).
      split; [apply attacher_inv_disconnect, Hi|]. split; [exact Ht|].
      split; [exact Hr|]. split; [|split].
      + intros o. unfold is_expired. rewrite expired_disconnect. apply He.
      + intros c Hc. unfold store_add in Hc.
        rewrite lookup_slot_disconnect, decide_False.
        * apply Hout. intros Hin'. apply Hc, elem_of_app. auto.
        * intros ->. apply Hc, elem_of_app. right. left.
      + intros c f Hc. unfold store_add in Hc.
        apply elem_of_app in Hc as [Hc|Hc].
        * apply disconnect_keeps_off, Hin, Hc.
        * apply list_elem_of_singleton in Hc as ->. apply disconnect_turns_off. }
  destruct Hmain as (Hi & Ht & Hr & He & Hout & Hin).
  repeat (split; [assumption|]).
  intros c o w2 Hc Hexp. rewrite <- Ht.
  destruct (heap (store_destroy s w) !! o) as [t|] eqn:Hto;
    [|unfold expire in Hexp; rewrite Hto in Hexp; discriminate].
  destruct (expired_ t) eqn:Heo.
  - rewrite (expire_done hash o _ t Hto Heo) in Hexp. injection Hexp as <-.
    reflexivity.
  - destruct (expire_spec hash o _ t Hi Hto Heo) as (w1 & Hw1 & _ & Htrace & _).
    assert (w1 = w2) as -> by congruence.
    rewrite Htrace, occurrences_app, occurrences_expiry_called.
    unfold observes. rewrite (Hin c user_slot Hc), andb_false_r. lia.
Qed.

End EXPIRY_MORE.

(** ** The further properties on the sample states *)

Lemma sample_world_inv_any (hash : addr -> nat) : attacher_inv hash sample_world.
Proof.
  apply attacher_inv_init; [reflexivity|].
  intros [o i] s. unfold lookup_slot, sample_world. simpl.
  rewrite !lookup_insert, lookup_singleton.
  repeat case_decide; try discriminate;
    destruct i as [|[|i]]; simpl; intros [= <-]; reflexivity.
Qed.

Lemma sample_attached_world_inv : attacher_inv sample_hash sample_attached_world.
Proof.
  destruct (attach_spec sample_hash 2 sample_world (ExpiryToken [] false)
              sample_world_inv) as (w1 & Hw1 & Hinv1 & _);
    [vm_compute; reflexivity|].
  assert (Heq : attach sample_hash 2 sample_world = Some sample_attached_world)
    by (vm_compute; reflexivity).
  congruence.
Qed.

Lemma sample_attached_world_by :
  attached_by sample_hash 2 (Cn 2 0) sample_attached_world.
Proof. repeat split; vm_compute; reflexivity. Qed.

Lemma sample_colliding_world_inv :
  attacher_inv colliding_hash sample_colliding_world.
Proof.
  destruct (attach_spec colliding_hash 2 sample_world (ExpiryToken [] false)
              (sample_world_inv_any colliding_hash)) as (w1 & Hw1 & Hinv1 & _);
    [vm_compute; reflexivity|].
  assert (Heq : attach colliding_hash 2 sample_world = Some sample_colliding_world)
    by (vm_compute; reflexivity).
  congruence.
Qed.

Lemma sample_colliding_world_by :
  attached_by colliding_hash 2 (Cn 2 0) sample_colliding_world.
Proof. repeat split; vm_compute; reflexivity. Qed.

(** Attaching object 3 of the sample state, which has expired. *)
Lemma attach_expired_is_never_detached_witness :
  exists w1 w2,
    attach sample_hash 3 sample_world = Some w1
    /\ trace w1 = trace sample_world ++ [Update (Attach 3)]
    /\ attached_objects_ w1 !! sample_hash 3 = Some (Cn 3 1)
    /\ run sample_hash (replicate 2 (Expire 3)) w1 = Some w1
    /\ destroy sample_hash 3 w1 = Some w2
    /\ trace w2 = trace w1
    /\ heap w2 !! 3 = None
    /\ attached_objects_ w2 !! sample_hash 3 = Some (Cn 3 1).
Proof.
  apply (attach_expired_is_never_detached sample_hash 3 sample_world
           (ExpiryToken [Slot user_slot true] true) 2).
  - exact sample_world_inv.
  - vm_compute. reflexivity.
  - reflexivity.
Defined.

(** Attaching object 2 again in the state where it is attached. *)
Lemma reattach_replaces_subscription_witness :
  exists w1 c',
    attach sample_hash 2 sample_attached_world = Some w1
    /\ trace w1 = trace sample_attached_world ++ [Update (Attach 2)]
    /\ lookup_slot (Cn 2 0) w1 = Some (Slot (on_expired 2) false)
    /\ c' <> Cn 2 0
    /\ attached_by sample_hash 2 c' w1
    /\ attached_on sample_hash w1 2 2 = true
    /\ attacher_inv sample_hash w1.
Proof.
  exact (reattach_replaces_subscription sample_hash 2 (Cn 2 0)
           sample_attached_world sample_attached_world_inv
           sample_attached_world_by).
Defined.

(** Objects 1 and 2 collide; 2 is attached, then 1 is attached, then 2
    expires. *)
Lemma key_collision_silences_first_witness :
  exists w1 w2,
    attach colliding_hash 1 sample_colliding_world = Some w1
    /\ lookup_slot (Cn 2 0) w1 = Some (Slot (on_expired 2) false)
    /\ expire colliding_hash 2 w1 = Some w2
    /\ occurrences (Update (Detach 2)) (trace w2) =
         occurrences (Update (Detach 2)) (trace sample_colliding_world)
    /\ attached_objects_ w2 !! colliding_hash 2 = Some (Cn 1 2).
Proof.
  apply (key_collision_silences_first colliding_hash 2 1 (Cn 2 0)
           sample_colliding_world
           (ExpiryToken [Slot user_slot true; Slot user_slot false] false)).
  - exact sample_colliding_world_inv.
  - exact sample_colliding_world_by.
  - discriminate.
  - reflexivity.
  - vm_compute. reflexivity.
Defined.

(** Destroying object 2 in the state where it is attached. *)
Lemma destroy_attached_detaches_witness :
  exists w2,
    destroy sample_hash 2 sample_attached_world = Some w2
    /\ occurrences (Update (Detach 2)) (trace w2) =
         occurrences (Update (Detach 2)) (trace sample_attached_world) + 1
    /\ attached_objects_ w2 !! sample_hash 2 = None
    /\ heap w2 !! 2 = None
    /\ attacher_inv sample_hash w2.
Proof.
  exact (destroy_attached_detaches sample_hash 2 (Cn 2 0)
           sample_attached_world sample_attached_world_inv
           sample_attached_world_by).
Defined.

(** Object 1 expires in the state where object 2 is attached. *)
Lemma expire_is_local_witness :
  exists w',
    expire sample_hash 1 sample_attached_world = Some w'
    /\ (forall c, cn_object c <> 1 ->
          lookup_slot c w' = lookup_slot c sample_attached_world
          /\ occurrences (Called c) (trace w') =
               occurrences (Called c) (trace sample_attached_world))
    /\ (forall o', o' <> 1 -> is_expired o' w' = is_expired o' sample_attached_world)
    /\ (forall k c, attached_objects_ sample_attached_world !! k = Some c ->
          cn_object c <> 1 -> attached_objects_ w' !! k = Some c).
Proof.
  eexists. split; [vm_compute; reflexivity|].
  apply (expire_is_local sample_hash 1 sample_attached_world).
  - exact sample_attached_world_inv.
  - vm_compute. reflexivity.
Defined.

(** A store holding the first callback of object 1 ends; object 1 expires
    afterwards. *)
Lemma store_destroy_unsubscribes_witness :
  attacher_inv sample_hash (store_destroy (store_add (Cn 1 0) []) sample_world)
  /\ trace (store_destroy (store_add (Cn 1 0) []) sample_world) = trace sample_world
  /\ attached_objects_ (store_destroy (store_add (Cn 1 0) []) sample_world)
     = attached_objects_ sample_world
  /\ (forall o, is_expired o (store_destroy (store_add (Cn 1 0) []) sample_world)
                = is_expired o sample_world)
  /\ (forall c, c ∉ store_add (Cn 1 0) [] ->
        lookup_slot c (store_destroy (store_add (Cn 1 0) []) sample_world)
        = lookup_slot c sample_world)
  /\ (forall c f, c ∈ store_add (Cn 1 0) [] ->
        slot_is (store_destroy (store_add (Cn 1 0) []) sample_world) c f = false)
  /\ (forall c o w2, c ∈ store_add (Cn 1 0) [] ->
        expire sample_hash o (store_destroy (store_add (Cn 1 0) []) sample_world)
          = Some w2 ->
        occurrences (Called c) (trace w2) = occurrences (Called c) (trace sample_world)).
Proof.
  exact (store_destroy_unsubscribes sample_hash (store_add (Cn 1 0) [])
           sample_world sample_world_inv).
Defined.

(** The store at work: the callback it held is not called, the other
    observer of the object would be (it is disconnected in the sample
    state, so here nobody is called). *)
Example store_scenario :
  trace <$> expire sample_hash 1 (store_destroy (store_add (Cn 1 0) []) sample_world)
    = Some []
  /\ trace <$> expire sample_hash 1 sample_world = Some [Called (Cn 1 0)].
Proof. split; vm_compute; reflexivity. Qed.

(** A [value_cn] on the sample property: made connected, connected again,
    and then a [set(7)].  The callback is called once, after the two
    connected observers the property had. *)
Example value_cn_scenario :
  match ValueCn.make (PropertyObserver.observer sample_property) false
          (sample_property, []) with
  | PropertyObserver.Returns s0 =>
      match ValueCn.do_toggles [ValueCn.Connect] s0 with
      | PropertyObserver.Returns (vc, st) =>
          ValueCn.connection_ vc = Some 4
          /\ snd (Property.set 7%Z true false st) = [(0, 7%Z); (2, 7%Z); (4, 7%Z)]
          /\ ValueCn.get vc (fst (Property.set 7%Z true false st)) = Some 7%Z
      | PropertyObserver.BadFunctionCall => False
      end
  | PropertyObserver.BadFunctionCall => False
  end.
Proof. vm_compute. repeat split. Qed.
